(** * mcp-z/oauth: account directory, key codec and smart switch

    A shallow embedding of [src/key-utils.ts], [src/account-utils.ts],
    [src/lib/account-server/shared-utils.ts] and the [account-switch] /
    [account-remove] handlers of [src/lib/account-server/loopback.ts],
    together with the properties of the account directory stated in the
    specification.

    JavaScript strings are [string]; the Keyv store is a finite map from
    string keys to tagged values; [async] functions that read and write the
    store and may throw are computations in a state-and-exception monad.
    Calls of the logger have no part in it, and an [McpError] is the message
    it is built with. *)

From Stdlib Require Import String Ascii List.
From stdpp Require Import gmap strings list fin_maps pretty.

Set Warnings "-clear-no-such-hyp".
Local Open Scope string_scope.
Local Open Scope list_scope.

(* ===================================================================== *)
(** ** JavaScript string primitives used by the sources *)
(* ===================================================================== *)

(** [value.includes(':')] *)
Fixpoint includes_colon (s : string) : bool :=
  match s with
  | EmptyString => false
  | String c s' => if Ascii.eqb c ":"%char then true else includes_colon s'
  end.

(** [key.split(':')]: the segments between the colons; the result is never
    empty, and an empty input gives one empty segment. *)
Fixpoint split_colon (s : string) : list string :=
  match s with
  | EmptyString => [EmptyString]
  | String c s' =>
      if Ascii.eqb c ":"%char then EmptyString :: split_colon s'
      else match split_colon s' with
           | [] => [String c EmptyString]
           | p :: ps => String c p :: ps
           end
  end.

(** Truthiness of a JavaScript string: every string but the empty one. *)
Definition truthy (s : string) : bool :=
  match s with
  | EmptyString => false
  | String _ _ => true
  end.

(** Truthiness of [string | undefined] and [string | null]; the result keeps
    the string when it is truthy. *)
Definition truthy_opt (o : option string) : option string :=
  match o with
  | Some s => if truthy s then Some s else None
  | None => None
  end.

(* ===================================================================== *)
(** ** Exceptions and the state monad of the store-passing code *)
(* ===================================================================== *)

(** A call either returns a value or throws an [Error] with a message. *)
Inductive outcome (A : Type) : Type :=
  | Ok (a : A)
  | Throw (msg : string).
Arguments Ok {A} a.
Arguments Throw {A} msg.

(** A computation over a state [S]: the state after the call is returned
    also when the call throws (no rollback). *)
Definition M (S A : Type) : Type := S -> outcome A * S.

Definition ret {S A} (a : A) : M S A := fun s => (Ok a, s).
Definition throw {S A} (msg : string) : M S A := fun s => (Throw msg, s).
Definition bind {S A B} (m : M S A) (k : A -> M S B) : M S B :=
  fun s => match m s with
           | (Ok a, s') => k a s'
           | (Throw msg, s') => (Throw msg, s')
           end.
(** [try { m } catch (error) { h(error.message) }] *)
Definition try_catch {S A} (m : M S A) (h : string -> M S A) : M S A :=
  fun s => match m s with
           | (Ok a, s') => (Ok a, s')
           | (Throw msg, s') => h msg s'
           end.

Notation "'let*' x ':=' m 'in' k" := (bind m (fun x => k))
  (at level 10, x name, m at level 100, k at level 200).

(** A synchronous call that may throw, used inside a computation. *)
Definition lift_outcome {S A} (o : outcome A) : M S A := fun s => (o, s).

(* ===================================================================== *)
(** ** key-utils.ts *)
(* ===================================================================== *)

Inductive AccountKeyType := Token | Metadata | DcrClient.
Inductive ServiceKeyType := Active | Linked.

Definition account_key_type_name (t : AccountKeyType) : string :=
  match t with
  | Token => "token"
  | Metadata => "metadata"
  | DcrClient => "dcr-client"
  end.

Definition service_key_type_name (t : ServiceKeyType) : string :=
  match t with
  | Active => "active"
  | Linked => "linked"
  end.

Record AccountKeyParams := { accountId : string; service : string }.
(** The one field of [ServiceKeyParams] is [service] in the source; record
    fields share one name space here. *)
Record ServiceKeyParams := { svc_service : string }.

(** [validateKeyParams]: the entries of the parameter object are visited in
    declaration order and the first one that contains a colon throws. The
    [typeof value !== 'string'] test cannot fire on a [string]. *)
Fixpoint validateKeyParams (entries : list (string * string)) : outcome unit :=
  match entries with
  | [] => Ok tt
  | (key, value) :: rest =>
      if includes_colon value
      then Throw ("Key parameter '" +:+ key +:+ "' cannot contain colon character: " +:+ value)
      else validateKeyParams rest
  end.

Definition account_entries (params : AccountKeyParams) : list (string * string) :=
  [("accountId", accountId params); ("service", service params)].
Definition service_entries (params : ServiceKeyParams) : list (string * string) :=
  [("service", svc_service params)].

Definition createAccountKey (type : AccountKeyType) (params : AccountKeyParams) : outcome string :=
  match validateKeyParams (account_entries params) with
  | Throw msg => Throw msg
  | Ok _ => Ok (accountId params +:+ ":" +:+ service params +:+ ":" +:+ account_key_type_name type)
  end.

Definition createServiceKey (type : ServiceKeyType) (params : ServiceKeyParams) : outcome string :=
  match validateKeyParams (service_entries params) with
  | Throw msg => Throw msg
  | Ok _ => Ok (svc_service params +:+ ":" +:+ service_key_type_name type)
  end.

(** [parseTokenKey]: [undefined] is [None]. *)
Definition parseTokenKey (key : string) : option AccountKeyParams :=
  match split_colon key with
  | [p0; p1; p2] =>
      if negb (String.eqb p2 "token") || negb (truthy p0) || negb (truthy p1)
      then None
      else Some {| accountId := p0; service := p1 |}
  | _ => None
  end.


(** The key stream of [store.iterator(undefined)]: the keys of the entries
    an async iterator yields, until it is done or throws. *)
Inductive key_stream : Type :=
  | StreamEnd
  | StreamYield (key : string) (rest : key_stream)
  | StreamThrow (msg : string).

(** [store.iterator]: [None] when the property is undefined (the optional
    call then gives [undefined]); otherwise the call throws, returns a falsy
    value ([Ok None]) or returns an iterator. *)
Definition keyv_iterator : Type := option (outcome (option key_stream)).

(** [for await (const [key] of iterator) { ... }] over the mutable array
    [accountIds], which is the state. *)
Fixpoint for_await_keys (svc : string) (s : key_stream) : M (list string) unit :=
  match s with
  | StreamEnd => ret tt
  | StreamThrow msg => throw msg
  | StreamYield key rest =>
      let* _ := (match parseTokenKey key with
                 | Some parsed =>
                     if String.eqb (service parsed) svc
                     then (fun accountIds => (Ok tt, accountIds ++ [accountId parsed]))
                     else ret tt
                 | None => ret tt
                 end) in
      for_await_keys svc rest
  end.

(** The body of the [try] block of [listAccountIds]. *)
Definition listAccountIds_try (iterator : keyv_iterator) (svc : string) : M (list string) unit :=
  match iterator with
  | None => ret tt
  | Some (Throw msg) => throw msg
  | Some (Ok None) => ret tt
  | Some (Ok (Some s)) => for_await_keys svc s
  end.

(** [listAccountIds]: of the store only [store.iterator] is used. Every
    [return] of the function, the one of the [catch] block included, returns
    the array [accountIds] as it is at that point. *)
Definition listAccountIds (iterator : keyv_iterator) (svc : string) : outcome (list string) :=
  match listAccountIds_try iterator svc [] with
  | (Ok _, accountIds) => Ok accountIds
  | (Throw _, accountIds) => Ok accountIds
  end.

(* ===================================================================== *)
(** ** The Keyv store *)
(* ===================================================================== *)

(** [AccountInfo] of types.ts. *)
Record AccountInfo := {
  email : string;
  alias : option string;
  addedAt : string;
  lastUsed : option string;
  metadata : option (list (string * string))
}.

(** What the store holds: the active account (a string), the linked accounts
    (an array of strings), account metadata and the opaque credential. *)
Inductive value : Type :=
  | VString (s : string)
  | VArray (l : list string)
  | VInfo (i : AccountInfo)
  | VToken (payload : string).

Abbreviation store := (gmap string value).

Definition store_get (key : string) : M store (option value) :=
  fun st => (Ok (st !! key), st).
Definition store_set (key : string) (v : value) : M store unit :=
  fun st => (Ok tt, <[key := v]> st).
Definition store_delete (key : string) : M store unit :=
  fun st => (Ok tt, delete key st).

(** A record read at the TypeScript type of its call site. *)
Definition as_string (v : option value) : option string :=
  match v with Some (VString s) => Some s | _ => None end.
Definition as_array (v : option value) : option (list string) :=
  match v with Some (VArray l) => Some l | _ => None end.
Definition as_info (v : option value) : option AccountInfo :=
  match v with Some (VInfo i) => Some i | _ => None end.
Definition as_token (v : option value) : option string :=
  match v with Some (VToken t) => Some t | _ => None end.

(* ===================================================================== *)
(** ** account-utils.ts *)
(* ===================================================================== *)

Definition getActiveAccount (params : ServiceKeyParams) : M store (option string) :=
  let* key := lift_outcome (createServiceKey Active params) in
  let* v := store_get key in
  ret (as_string v).

(** [setActiveAccount]: [account = None] is [accountId: null]. Only the
    service is passed to [createServiceKey]. *)
Definition setActiveAccount (svc : string) (account : option string) : M store unit :=
  let* key := lift_outcome (createServiceKey Active {| svc_service := svc |}) in
  match account with
  | None => store_delete key
  | Some a => store_set key (VString a)
  end.

(** [getLinkedAccounts]: [accounts || []]; an array is truthy. *)
Definition getLinkedAccounts (params : ServiceKeyParams) : M store (list string) :=
  let* key := lift_outcome (createServiceKey Linked params) in
  let* accounts := store_get key in
  ret (match as_array accounts with Some l => l | None => [] end).

Definition addAccount (params : AccountKeyParams) : M store unit :=
  let* linked := getLinkedAccounts {| svc_service := service params |} in
  let* _ := (if bool_decide (accountId params ∈ linked) then ret tt
             else
               let* linkedKey := lift_outcome (createServiceKey Linked {| svc_service := service params |}) in
               store_set linkedKey (VArray (linked ++ [accountId params]))) in
  let* active := getActiveAccount {| svc_service := service params |} in
  match truthy_opt active with
  | None => setActiveAccount (service params) (Some (accountId params))
  | Some _ => ret tt
  end.

Definition removeAccount (params : AccountKeyParams) : M store unit :=
  let* tokenKey := lift_outcome (createAccountKey Token params) in
  let* _ := store_delete tokenKey in
  let* infoKey := lift_outcome (createAccountKey Metadata params) in
  let* _ := store_delete infoKey in
  let* linked := getLinkedAccounts {| svc_service := service params |} in
  let filtered := filter (λ id, id ≠ accountId params) linked in
  let* linkedKey := lift_outcome (createServiceKey Linked {| svc_service := service params |}) in
  let* _ := store_set linkedKey (VArray filtered) in
  let* active := getActiveAccount {| svc_service := service params |} in
  if bool_decide (active = Some (accountId params)) then
    match truthy_opt (head filtered) with
    | Some newActive => setActiveAccount (service params) (Some newActive)
    | None =>
        let* activeKey := lift_outcome (createServiceKey Active {| svc_service := service params |}) in
        store_delete activeKey
    end
  else ret tt.

Definition getAccountInfo (params : AccountKeyParams) : M store (option AccountInfo) :=
  let* key := lift_outcome (createAccountKey Metadata params) in
  let* v := store_get key in
  ret (as_info v).

Definition setAccountInfo (params : AccountKeyParams) (info : AccountInfo) : M store unit :=
  let* key := lift_outcome (createAccountKey Metadata params) in
  store_set key (VInfo info).

Definition getToken (params : AccountKeyParams) : M store (option string) :=
  let* key := lift_outcome (createAccountKey Token params) in
  let* v := store_get key in
  ret (as_token v).

Definition setToken (params : AccountKeyParams) (token : string) : M store unit :=
  let* key := lift_outcome (createAccountKey Token params) in
  store_set key (VToken token).

(* ===================================================================== *)
(** ** lib/account-server/shared-utils.ts *)
(* ===================================================================== *)

(** The alias loop of [findAccountByEmailOrAlias]; [info?.alias] is
    [undefined] when there is no metadata or no alias. *)
Fixpoint search_by_alias (svc emailOrAlias : string) (ids : list string) : M store (option string) :=
  match ids with
  | [] => ret None
  | id :: rest =>
      let* info := getAccountInfo {| accountId := id; service := svc |} in
      if bool_decide (match info with Some i => alias i | None => None end = Some emailOrAlias)
      then ret (Some id)
      else search_by_alias svc emailOrAlias rest
  end.

(** [findAccountByEmailOrAlias]: [null] is [None]. *)
Definition findAccountByEmailOrAlias (svc emailOrAlias : string) : M store (option string) :=
  let* linkedAccountIds := getLinkedAccounts {| svc_service := svc |} in
  if bool_decide (emailOrAlias ∈ linkedAccountIds) then ret (Some emailOrAlias)
  else search_by_alias svc emailOrAlias linkedAccountIds.

(* ===================================================================== *)
(** ** lib/account-server/loopback.ts *)
(* ===================================================================== *)

(** What a handler runs in: the store of the configuration and the log of
    the arguments [auth.getAccessToken] was called with, latest first. *)
Record world := { kv : store; auth_calls : list string }.

Definition lift_store {A} (m : M store A) : M world A :=
  fun w => match m (kv w) with
           | (r, st') => (r, {| kv := st'; auth_calls := auth_calls w |})
           end.

(** The [account-switch] arguments [{ email?, alias? }] and its result. *)
Record SwitchParams := { arg_email : option string; arg_alias : option string }.
Record SwitchResult := {
  res_email : string;
  isNew : bool;
  totalAccounts : nat;
  message : string
}.

(** The [account-remove] result; [newActiveAccount] is spread into the
    object only when it is truthy. *)
Record RemoveResult := {
  rm_service : string;
  removed : string;
  remainingAccounts : nat;
  newActiveAccount : option string;
  rm_message : string
}.

Section Loopback.

(** [config.service] *)
Variable svc : string.

(** [config.auth.getAccessToken]: the interactive flow, which works on the
    store on its own account, returns an access token or throws. *)
Variable getAccessToken : string -> M store string.

(** [randomUUID()] and [new Date().toISOString()] of one handler run. *)
Variable uuid : string.
Variable now : string.

Definition call_getAccessToken (arg : string) : M world string :=
  fun w => match getAccessToken arg (kv w) with
           | (r, st') => (r, {| kv := st'; auth_calls := arg :: auth_calls w |})
           end.

(** Lines 108 to 153 of the [account-switch] handler: what is run when
    the reuse branch did not return. *)
Definition switch_oauth (params : SwitchParams) (existingAccounts : list string) : M world SwitchResult :=
  let* _ := call_getAccessToken ("new:" +:+ uuid) in
  let* active := lift_store (getActiveAccount {| svc_service := svc |}) in
  match truthy_opt active with
  | None => throw "OAuth flow completed without setting an active account"
  | Some email =>
      let isNew := negb (bool_decide (email ∈ existingAccounts)) in
      let* _ := (if isNew
                 then lift_store (addAccount {| accountId := email; service := svc |})
                 else ret tt) in
      let* existingInfo := lift_store (getAccountInfo {| accountId := email; service := svc |}) in
      let accountInfo :=
        {| email := email;
           alias := truthy_opt (arg_alias params);
           addedAt := if isNew then now
                      else match existingInfo with
                           | Some i => addedAt i
                           | None => now
                           end;
           lastUsed := None;
           metadata := None |} in
      let* _ := lift_store (setAccountInfo {| accountId := email; service := svc |} accountInfo) in
      let* _ := lift_store (setActiveAccount svc (Some email)) in
      let totalAccounts := if isNew then length existingAccounts + 1 else length existingAccounts in
      ret {| res_email := email;
             isNew := isNew;
             totalAccounts := totalAccounts;
             message := if isNew
                        then "Successfully added " +:+ svc +:+ " account: " +:+ email
                             +:+ " (" +:+ pretty totalAccounts +:+ " total)"
                        else "Account already linked: " +:+ email +:+ ". Set as active account." |}
  end.

(** The [try] block of the [account-switch] handler. *)
Definition account_switch_try (params : SwitchParams) : M world SwitchResult :=
  let* existingAccounts := lift_store (getLinkedAccounts {| svc_service := svc |}) in
  match truthy_opt (arg_email params) with
  | Some reference =>
      let* accountId := lift_store (findAccountByEmailOrAlias svc reference) in
      match truthy_opt accountId with
      | Some email =>
          let* _ := lift_store (setActiveAccount svc (Some email)) in
          let* _ := (match truthy_opt (arg_alias params) with
                     | Some new_alias =>
                         let* existingInfo := lift_store (getAccountInfo {| accountId := email; service := svc |}) in
                         let accountInfo :=
                           {| email := email;
                              alias := Some new_alias;
                              addedAt := match existingInfo with
                                         | Some i => addedAt i
                                         | None => now
                                         end;
                              lastUsed := None;
                              metadata := None |} in
                         lift_store (setAccountInfo {| accountId := email; service := svc |} accountInfo)
                     | None => ret tt
                     end) in
          ret {| res_email := email;
                 isNew := false;
                 totalAccounts := length existingAccounts;
                 message := "Account already linked: " +:+ email
                            +:+ ". Set as active account (no OAuth needed)." |}
      | None => switch_oauth params existingAccounts
      end
  | None => switch_oauth params existingAccounts
  end.

(** The [account-switch] handler: whatever the [try] block throws is
    thrown again as an [McpError] whose message is built from it. *)
Definition account_switch (params : SwitchParams) : M world SwitchResult :=
  try_catch (account_switch_try params)
    (fun msg => throw ("Error switching " +:+ svc +:+ " account: " +:+ msg)).

(** The [try] block of the [account-remove] handler; [reference] is
    [params.accountId]. *)
Definition account_remove_try (reference : string) : M store RemoveResult :=
  let* linkedAccounts := getLinkedAccounts {| svc_service := svc |} in
  if Nat.eqb (length linkedAccounts) 0
  then throw ("No " +:+ svc +:+ " accounts to remove")
  else
    let* found := findAccountByEmailOrAlias svc reference in
    match truthy_opt found with
    | None => throw ("Account not found: " +:+ reference)
    | Some accountId =>
        let* activeAccount := getActiveAccount {| svc_service := svc |} in
        let removingActive := bool_decide (activeAccount = Some accountId) in
        let* _ := removeAccount {| service := svc; accountId := accountId |} in
        let remaining := filter (λ id, id ≠ accountId) linkedAccounts in
        let* newActive :=
          (if removingActive && Nat.ltb 0 (length remaining)
           then match truthy_opt (head remaining) with
                | Some firstRemaining =>
                    let* _ := setActiveAccount svc (Some firstRemaining) in
                    ret (Some firstRemaining)
                | None => ret None
                end
           else ret None) in
        ret {| rm_service := svc;
               removed := accountId;
               remainingAccounts := length remaining;
               newActiveAccount := newActive;
               rm_message := "Removed " +:+ svc +:+ " account: " +:+ accountId
                             +:+ match newActive with
                                 | Some a => ". Active account is now: " +:+ a
                                 | None => ""
                                 end |}
    end.

Definition account_remove (reference : string) : M store RemoveResult :=
  try_catch (account_remove_try reference)
    (fun msg => throw ("Error removing " +:+ svc +:+ " account: " +:+ msg)).

End Loopback.

(* ===================================================================== *)
(** ** Sequences of directory calls and the directory invariant *)
(* ===================================================================== *)

(** One call of the account directory. *)
Inductive dir_op : Type :=
  | OpAdd (params : AccountKeyParams)
  | OpRemove (params : AccountKeyParams)
  | OpSetActive (svc : string) (account : option string).

Definition run_op (op : dir_op) : M store unit :=
  match op with
  | OpAdd params => addAccount params
  | OpRemove params => removeAccount params
  | OpSetActive svc account => setActiveAccount svc account
  end.

(** The store after a sequence of calls; a call that throws leaves the store
    as it was when it threw, and the next call runs from there. *)
Fixpoint run_ops (ops : list dir_op) (st : store) : store :=
  match ops with
  | [] => st
  | op :: rest => run_ops rest (snd (run_op op st))
  end.

(** The value a computation returns in a store, when it returns one. *)
Definition returns {S A} (m : M S A) (s : S) (a : A) : Prop := fst (m s) = Ok a.

(** The invariant of the directory: an active account that can be read is
    one of the linked accounts of the same service. *)
Definition active_is_linked (st : store) : Prop :=
  ∀ s a, returns (getActiveAccount {| svc_service := s |}) st (Some a) →
         ∃ l, returns (getLinkedAccounts {| svc_service := s |}) st l ∧ a ∈ l.

(** The documented precondition of [setActiveAccount]: the account it
    activates is linked for the service. Checked call by call along a
    sequence, in the store each call runs in. *)
Definition op_guarded (st : store) (op : dir_op) : bool :=
  match op with
  | OpSetActive s (Some a) =>
      match fst (getLinkedAccounts {| svc_service := s |} st) with
      | Ok l => bool_decide (a ∈ l)
      | Throw _ => true
      end
  | _ => true
  end.

Fixpoint ops_guarded (st : store) (ops : list dir_op) : bool :=
  match ops with
  | [] => true
  | op :: rest => op_guarded st op && ops_guarded (snd (run_op op st)) rest
  end.

(** The last character of a key tells the kind of record it addresses. *)
Fixpoint last_char (s : string) : option ascii :=
  match s with
  | EmptyString => None
  | String c EmptyString => Some c
  | String _ s' => last_char s'
  end.

(** The two service-scoped records as they are read back, by key. *)
Definition active_of (st : store) (s : string) : option string :=
  as_string (st !! (s +:+ ":active")).
Definition linked_of (st : store) (s : string) : list string :=
  match as_array (st !! (s +:+ ":linked")) with Some l => l | None => [] end.

(** The alias the metadata of a linked account holds, if any. *)
Definition alias_of (st : store) (svc id : string) : option string :=
  match as_info (st !! (id +:+ ":" +:+ svc +:+ ":metadata")) with
  | Some i => alias i
  | None => None
  end.

(** The keys an iterator yields before it is done or throws, and whether
    it throws. *)
Fixpoint stream_yielded (s : key_stream) : list string :=
  match s with
  | StreamEnd => []
  | StreamThrow _ => []
  | StreamYield key rest => key :: stream_yielded rest
  end.

Fixpoint stream_throws (s : key_stream) : bool :=
  match s with
  | StreamEnd => false
  | StreamThrow _ => true
  | StreamYield _ rest => stream_throws rest
  end.

(** The account identifiers of the keys that parse as token keys of the
    service, in the order of the keys. *)
Fixpoint token_account_ids (svc : string) (keys : list string) : list string :=
  match keys with
  | [] => []
  | key :: rest =>
      match parseTokenKey key with
      | Some parsed =>
          if String.eqb (service parsed) svc
          then accountId parsed :: token_account_ids svc rest
          else token_account_ids svc rest
      | None => token_account_ids svc rest
      end
  end.

(** The [account-switch] handler reaches the interactive flow when no
    truthy [email] argument is given, or when the lookup of the argument
    returns no truthy account. *)
Definition takes_oauth_path (svc : string) (params : SwitchParams) (st : store) : Prop :=
  match truthy_opt (arg_email params) with
  | None => True
  | Some reference =>
      ∃ found, returns (findAccountByEmailOrAlias svc reference) st found ∧
               truthy_opt found = None
  end.

(** Scenarios. [quiet_flow] is an interactive flow that returns a token and
    writes nothing: the user authorizes again the account that is active.
    [store_with_alias accounts a] is the store after the accounts were added
    in turn and [a] was given the alias "work". *)
Definition quiet_flow : string -> M store string :=
  fun _ st => (Ok "access-token", st).

Definition store_with_alias (accounts : list string) (a : string) : store :=
  snd (setAccountInfo {| accountId := a; service := "gmail" |}
         {| email := a; alias := Some "work"; addedAt := "2024-01-01T00:00:00.000Z";
            lastUsed := None; metadata := None |}
         (run_ops (map (λ id, OpAdd {| accountId := id; service := "gmail" |}) accounts) ∅)).

(** The typing discipline of the store: the shape of a record is the one
    of the kind of its key. The directory keeps it, so that the reads at a
    TypeScript type above lose nothing. *)
Definition record_typed (key : string) (v : value) : Prop :=
  last_char key = Some (match v with
                        | VString _ => "e"
                        | VArray _ => "d"
                        | VInfo _ => "a"
                        | VToken _ => "n"
                        end)%char.

Definition store_typed (st : store) : Prop := map_Forall record_typed st.

(** The stream of an iterator that yields the given keys and is done. *)
Fixpoint stream_of_keys (keys : list string) : key_stream :=
  match keys with
  | [] => StreamEnd
  | key :: rest => StreamYield key (stream_of_keys rest)
  end.

(** The two records [setToken] and [setAccountInfo] keep for an account. *)
Definition token_key (p : AccountKeyParams) : string :=
  accountId p +:+ ":" +:+ service p +:+ ":token".
Definition metadata_key (p : AccountKeyParams) : string :=
  accountId p +:+ ":" +:+ service p +:+ ":metadata".

(** Key parameters that pass [validateKeyParams]. *)
Definition valid_params (p : AccountKeyParams) : Prop :=
  includes_colon (accountId p) = false ∧ includes_colon (service p) = false.

(** The service a directory call works on. *)
Definition op_service (op : dir_op) : string :=
  match op with
  | OpAdd params => service params
  | OpRemove params => service params
  | OpSetActive svc _ => svc
  end.

(** The [account-list] handler of loopback.ts. A row of the listing, and
    the result. *)
Record ListedAccount := { la_email : string; la_alias : option string; isActive : bool }.
Record ListResult := {
  ls_service : string;
  accounts : list ListedAccount;
  ls_totalAccounts : nat;
  ls_message : string
}.

(** [Promise.all(linkedAccounts.map(async (email) => ...))]: the reads do
    not write to the store, so that running them in list order gives the
    rows, or the rejection of the first read that throws. *)
Fixpoint list_rows (svc : string) (activeAccountId : option string) (ids : list string)
    : M store (list ListedAccount) :=
  match ids with
  | [] => ret []
  | id :: rest =>
      let* accountInfo := getAccountInfo {| accountId := id; service := svc |} in
      let* rows := list_rows svc activeAccountId rest in
      ret ({| la_email := id;
              la_alias := match accountInfo with Some i => alias i | None => None end;
              isActive := bool_decide (activeAccountId = Some id) |} :: rows)
  end.

Definition account_list_try (svc : string) : M store ListResult :=
  let* linkedAccounts := getLinkedAccounts {| svc_service := svc |} in
  if Nat.eqb (length linkedAccounts) 0
  then ret {| ls_service := svc;
              accounts := [];
              ls_totalAccounts := 0;
              ls_message := "No " +:+ svc
                            +:+ " accounts linked. Use account-switch to add an account." |}
  else
    let* activeAccountId := getActiveAccount {| svc_service := svc |} in
    let* rows := list_rows svc activeAccountId linkedAccounts in
    ret {| ls_service := svc;
           accounts := rows;
           ls_totalAccounts := length linkedAccounts;
           ls_message := "Found " +:+ pretty (length linkedAccounts) +:+ " " +:+ svc
                         +:+ " account(s)" |}.

Definition account_list (svc : string) : M store ListResult :=
  try_catch (account_list_try svc)
    (fun msg => throw ("Error listing " +:+ svc +:+ " accounts: " +:+ msg)).

(** The row of the listing for a linked account, read off the store. *)
Definition row_of (st : store) (svc : string) (id : string) : ListedAccount :=
  {| la_email := id;
     la_alias := alias_of st svc id;
     isActive := bool_decide (active_of st svc = Some id) |}.

(** An interactive flow keeps the directory invariant when the store it
    leaves, on return or on failure, satisfies it whenever the store it
    started from does. *)
Definition flow_keeps_invariant (getAccessToken : string -> M store string) : Prop :=
  ∀ arg st, active_is_linked st → active_is_linked (snd (getAccessToken arg st)).

(** A handler computation that does not call the interactive flow. *)
Definition keeps_calls {A} (m : M world A) : Prop :=
  ∀ w, auth_calls (snd (m w)) = auth_calls w.

(* ===================================================================== *)
(** ** lib/account-server/me.ts *)
(* ===================================================================== *)

(** [Number.MAX_SAFE_INTEGER], 2^53 - 1: up to it the whole numbers are
    doubles, and the divisions by 1000 and by 60 below, once floored, are
    the floored divisions of the whole numbers. *)
Definition MAX_SAFE_INTEGER : Z := 9007199254740991.

(** [formatDuration]. The source computes on doubles; this is what it
    computes for a whole number of milliseconds up to [MAX_SAFE_INTEGER] in
    absolute value, the range of the epoch milliseconds the handler passes:
    there [Math.floor] of a quotient is the floored division, [%] is the
    remainder that has the sign of the dividend, and a whole number is
    printed in decimal. Beyond that range the quotients of the source are
    rounded, and nothing is stated of it here. *)
Definition formatDuration (ms : Z) : string :=
  let totalSeconds := (ms / 1000)%Z in
  if (totalSeconds <? 60)%Z then pretty totalSeconds +:+ "s"
  else
    let minutes := (totalSeconds / 60)%Z in
    if (minutes <? 60)%Z then pretty minutes +:+ "m"
    else
      let hours := (minutes / 60)%Z in
      let remainingMinutes := Z.rem minutes 60 in
      if (remainingMinutes =? 0)%Z then pretty hours +:+ "h"
      else pretty hours +:+ "h " +:+ pretty remainingMinutes +:+ "m".

(** [config.mode] and the result of the [account-me] handler; the fields
    [alias] and [sessionExpiresIn] are there when they are truthy. *)
Inductive MeMode := MeLoopback | MeStateless | MeDeviceCode | MeServiceAccount.
Record MeResult := {
  me_service : string;
  me_email : string;
  me_alias : option string;
  sessionExpiresIn : option string;
  me_message : string
}.

(** The part of a handler that needs [config.store], which is optional. *)
Definition with_store {A} (m : M store A) : M (option store) A :=
  fun o => match o with
           | None => (Throw "Store is required for non-stateless mode", None)
           | Some st => match m st with (r, st') => (r, Some st') end
           end.

Section AccountMe.

(** [config.service]; [token.expiresAt] of a stored credential, in epoch
    milliseconds; [Date.now()]. *)
Variable svc : string.
Variable expiresAt_of : string -> option Z.
Variable now_ms : Z.

(** The inner [try] of the handler: the session expiry of the account. *)
Definition session_expiry (activeAccountId : string) : M store string :=
  try_catch
    (let* token := getToken {| accountId := activeAccountId; service := svc |} in
     match token with
     | Some payload =>
         match expiresAt_of payload with
         | Some expiresAt =>
             if (expiresAt =? 0)%Z then ret "never"
             else if (now_ms <? expiresAt)%Z then ret (formatDuration (expiresAt - now_ms))
                  else ret "expired"
         | None => ret "never"
         end
     | None => ret "never"
     end)
    (fun _ => ret "never").

(** The handler from the read of the active account on. *)
Definition account_me_store : M store MeResult :=
  let* activeAccountId := getActiveAccount {| svc_service := svc |} in
  match truthy_opt activeAccountId with
  | None => throw ("No active " +:+ svc +:+ " account found. Use account-switch to add an account.")
  | Some active =>
      let* accountInfo := getAccountInfo {| accountId := active; service := svc |} in
      let email := match accountInfo with Some i => email i | None => active end in
      let alias := truthy_opt (match accountInfo with Some i => alias i | None => None end) in
      let* expiry := session_expiry active in
      let sessionExpiresIn := truthy_opt (Some expiry) in
      ret {| me_service := svc;
             me_email := email;
             me_alias := alias;
             sessionExpiresIn := sessionExpiresIn;
             me_message := "Authenticated as " +:+ email
                           +:+ match alias with Some a => " (" +:+ a +:+ ")" | None => "" end
                           +:+ match sessionExpiresIn with
                               | Some e => ". Session expires in " +:+ e
                               | None => ""
                               end
                           +:+ "." |}
  end.

(** The [account-me] handler; [authContext] is [extra?.authContext?.accountId]. *)
Definition account_me (mode : MeMode) (authContext : option string) : M (option store) MeResult :=
  try_catch
    (match mode with
     | MeStateless =>
         match truthy_opt authContext with
         | None => throw "No authentication context available. DCR mode requires bearer token."
         | Some id =>
             ret {| me_service := svc;
                    me_email := id;
                    me_alias := None;
                    sessionExpiresIn := None;
                    me_message := "Authenticated as " +:+ id
                                  +:+ ". Session managed by MCP client." |}
         end
     | _ => with_store account_me_store
     end)
    (fun msg => throw ("Error getting " +:+ svc +:+ " account info: " +:+ msg)).

End AccountMe.

(** Two more interactive flows. [forgetful_flow] stores a credential and
    leaves no active account behind; [flow_activating e] leaves [e] as the
    active account, as a flow that authorized [e] does. *)
Definition forgetful_flow : string -> M store string :=
  fun _ st => (Ok "access-token",
               <["user2@gmail.com:gmail:token" := VToken "credential"]> (delete "gmail:active" st)).

Definition flow_activating (e : string) : string -> M store string :=
  fun _ st => (Ok "access-token", <["gmail:active" := VString e]> st).

(* ##################################################################### *)
(** * Properties *)
(* ##################################################################### *)

(* ===================================================================== *)
(** ** Strings and keys *)
(* ===================================================================== *)

Lemma split_colon_nonempty s : split_colon s ≠ [].
Proof.
  induction s as [|c s IH]; simpl; [done|].
  destruct (Ascii.eqb c ":"); [done|].
  destruct (split_colon s); done.
Qed.

Lemma split_colon_no_colon s : includes_colon s = false → split_colon s = [s].
Proof.
  induction s as [|c s IH]; simpl; [done|].
  destruct (Ascii.eqb c ":"); [done|].
  intros H. by rewrite (IH H).
Qed.

Lemma split_colon_segment a rest :
  includes_colon a = false →
  split_colon (a +:+ ":" +:+ rest) = a :: split_colon rest.
Proof.
  induction a as [|c a IH]; simpl; [done|].
  destruct (Ascii.eqb c ":"); [done|].
  intros H. by rewrite (IH H).
Qed.

Lemma truthy_true s : truthy s = true ↔ s ≠ "".
Proof. destruct s; simpl; split; congruence. Qed.

Lemma truthy_opt_Some o s : truthy_opt o = Some s ↔ o = Some s ∧ s ≠ "".
Proof.
  destruct o as [[|c t]|]; simpl; split; try (intros [? ?]); congruence || (intros; split; congruence).
Qed.

Lemma last_char_app s t : t ≠ "" → last_char (s +:+ t) = last_char t.
Proof.
  intros Ht. induction s as [|c s IH]; simpl; [done|].
  rewrite IH. destruct (s +:+ t) eqn:E; [|done].
  destruct s; simpl in E; [done | discriminate].
Qed.

Lemma append_inj_l s s' t : s +:+ t = s' +:+ t → s = s'.
Proof.
  intros H.
  assert (Hl : ∀ a b, list_ascii_of_string (a +:+ b)
                      = list_ascii_of_string a ++ list_ascii_of_string b).
  { intros a b. induction a as [|c a IH]; simpl; [done | by rewrite IH]. }
  apply (f_equal list_ascii_of_string) in H. rewrite !Hl in H.
  apply app_inv_tail in H.
  rewrite <- (string_of_list_ascii_of_string s), H.
  apply string_of_list_ascii_of_string.
Qed.

Lemma validateKeyParams_service s :
  validateKeyParams (service_entries {| svc_service := s |})
  = if includes_colon s
    then Throw ("Key parameter 'service' cannot contain colon character: " +:+ s)
    else Ok tt.
Proof. unfold service_entries; simpl. by destruct (includes_colon s). Qed.

Lemma createServiceKey_valid t s :
  includes_colon s = false →
  createServiceKey t {| svc_service := s |} = Ok (s +:+ ":" +:+ service_key_type_name t).
Proof. intros H. unfold createServiceKey. rewrite validateKeyParams_service, H. done. Qed.

Lemma createServiceKey_invalid t s :
  includes_colon s = true →
  createServiceKey t {| svc_service := s |}
  = Throw ("Key parameter 'service' cannot contain colon character: " +:+ s).
Proof. intros H. unfold createServiceKey. rewrite validateKeyParams_service, H. done. Qed.

Lemma createAccountKey_valid t a s :
  includes_colon a = false → includes_colon s = false →
  createAccountKey t {| accountId := a; service := s |}
  = Ok (a +:+ ":" +:+ s +:+ ":" +:+ account_key_type_name t).
Proof.
  intros Ha Hs. unfold createAccountKey, account_entries; simpl. by rewrite Ha, Hs.
Qed.

Lemma createAccountKey_Ok t p k :
  createAccountKey t p = Ok k →
  includes_colon (accountId p) = false ∧ includes_colon (service p) = false ∧
  k = accountId p +:+ ":" +:+ service p +:+ ":" +:+ account_key_type_name t.
Proof.
  unfold createAccountKey, account_entries; simpl.
  destruct (includes_colon (accountId p)); [done|].
  destruct (includes_colon (service p)); [done|]. naive_solver.
Qed.

(** The kind of a key can be read off its last character. *)
Lemma service_key_last t s :
  last_char (s +:+ ":" +:+ service_key_type_name t)
  = Some (match t with Active => "e" | Linked => "d" end)%char.
Proof. rewrite last_char_app by (simpl; discriminate). by destruct t. Qed.

Lemma account_key_last t a s :
  last_char (a +:+ ":" +:+ s +:+ ":" +:+ account_key_type_name t)
  = Some (match t with Token => "n" | Metadata => "a" | DcrClient => "t" end)%char.
Proof.
  rewrite (last_char_app a) by (simpl; discriminate).
  change (last_char (":" +:+ s +:+ ":" +:+ account_key_type_name t))
    with (last_char (String ":" (s +:+ ":" +:+ account_key_type_name t))).
  assert (Hne : s +:+ ":" +:+ account_key_type_name t ≠ "") by (by destruct s).
  simpl. destruct (s +:+ ":" +:+ account_key_type_name t) eqn:E; [done|].
  rewrite <- E, (last_char_app s) by (simpl; discriminate). by destruct t.
Qed.

Lemma service_key_inj t t' s s' :
  s +:+ ":" +:+ service_key_type_name t = s' +:+ ":" +:+ service_key_type_name t' →
  s = s' ∧ t = t'.
Proof.
  intros H. assert (t = t') as <-.
  { apply (f_equal last_char) in H. rewrite !service_key_last in H.
    destruct t, t'; done. }
  split; [|done]. by apply append_inj_l in H.
Qed.

Lemma account_key_not_service_key ta a s ts s' :
  a +:+ ":" +:+ s +:+ ":" +:+ account_key_type_name ta
  ≠ s' +:+ ":" +:+ service_key_type_name ts.
Proof.
  intros H. apply (f_equal last_char) in H.
  rewrite account_key_last, service_key_last in H. destruct ta, ts; done.
Qed.

(* ===================================================================== *)
(** ** Key round trip *)
(* ===================================================================== *)

(** C7, as amended. For every [accountId] and [service] that contain no
    colon and are not empty, [createAccountKey] builds the token key and
    [parseTokenKey] gives back exactly [{accountId, service}]. *)
Theorem parseTokenKey_createAccountKey (a s : string) :
  includes_colon a = false → includes_colon s = false →
  a ≠ "" → s ≠ "" →
  ∃ key, createAccountKey Token {| accountId := a; service := s |} = Ok key ∧
         parseTokenKey key = Some {| accountId := a; service := s |}.
Proof.
  intros Ha Hs Hane Hsne.
  exists (a +:+ ":" +:+ s +:+ ":" +:+ "token"). split.
  - by apply createAccountKey_valid.
  - unfold parseTokenKey.
    rewrite (split_colon_segment a) by done.
    rewrite (split_colon_segment s) by done.
    simpl. apply truthy_true in Hane, Hsne. by rewrite Hane, Hsne.
Qed.

Lemma parseTokenKey_createAccountKey_witness :
  ∃ key, createAccountKey Token {| accountId := "user@gmail.com"; service := "gmail" |} = Ok key ∧
         parseTokenKey key = Some {| accountId := "user@gmail.com"; service := "gmail" |}.
Proof.
  apply (parseTokenKey_createAccountKey "user@gmail.com" "gmail");
    [reflexivity | reflexivity | discriminate | discriminate].
Defined.

(** C7 as stated fails on the empty string, which contains no colon: the
    key is built, and [parseTokenKey] rejects its empty first segment. *)
Lemma parseTokenKey_empty_accountId :
  includes_colon "" = false ∧ includes_colon "gmail" = false ∧
  createAccountKey Token {| accountId := ""; service := "gmail" |} = Ok ":gmail:token" ∧
  parseTokenKey ":gmail:token" ≠ Some {| accountId := ""; service := "gmail" |}.
Proof. repeat split; try reflexivity. vm_compute. discriminate. Qed.

(* ===================================================================== *)
(** ** The account directory, call by call *)
(* ===================================================================== *)

Ltac run_monad :=
  unfold bind, ret, throw, lift_outcome, store_get, store_set, store_delete; simpl.

Lemma getActiveAccount_valid s st :
  includes_colon s = false →
  getActiveAccount {| svc_service := s |} st = (Ok (active_of st s), st).
Proof.
  intros H. unfold getActiveAccount. run_monad.
  by rewrite (createServiceKey_valid Active) by done.
Qed.

Lemma getLinkedAccounts_valid s st :
  includes_colon s = false →
  getLinkedAccounts {| svc_service := s |} st = (Ok (linked_of st s), st).
Proof.
  intros H. unfold getLinkedAccounts. run_monad.
  by rewrite (createServiceKey_valid Linked) by done.
Qed.

Lemma getActiveAccount_invalid s st :
  includes_colon s = true →
  getActiveAccount {| svc_service := s |} st
  = (Throw ("Key parameter 'service' cannot contain colon character: " +:+ s), st).
Proof.
  intros H. unfold getActiveAccount. run_monad.
  by rewrite (createServiceKey_invalid Active) by done.
Qed.

Lemma getLinkedAccounts_invalid s st :
  includes_colon s = true →
  getLinkedAccounts {| svc_service := s |} st
  = (Throw ("Key parameter 'service' cannot contain colon character: " +:+ s), st).
Proof.
  intros H. unfold getLinkedAccounts. run_monad.
  by rewrite (createServiceKey_invalid Linked) by done.
Qed.

Lemma returns_getActiveAccount s st o :
  returns (getActiveAccount {| svc_service := s |}) st o ↔
  includes_colon s = false ∧ active_of st s = o.
Proof.
  unfold returns. destruct (includes_colon s) eqn:E.
  - rewrite getActiveAccount_invalid by done. simpl. naive_solver.
  - rewrite getActiveAccount_valid by done. simpl. naive_solver.
Qed.

Lemma returns_getLinkedAccounts s st l :
  returns (getLinkedAccounts {| svc_service := s |}) st l ↔
  includes_colon s = false ∧ linked_of st s = l.
Proof.
  unfold returns. destruct (includes_colon s) eqn:E.
  - rewrite getLinkedAccounts_invalid by done. simpl. naive_solver.
  - rewrite getLinkedAccounts_valid by done. simpl. naive_solver.
Qed.

Lemma setActiveAccount_valid s o st :
  includes_colon s = false →
  setActiveAccount s o st
  = (Ok tt, match o with
            | Some a => <[s +:+ ":active" := VString a]> st
            | None => delete (s +:+ ":active") st
            end).
Proof.
  intros H. unfold setActiveAccount. run_monad.
  rewrite (createServiceKey_valid Active) by done. by destruct o.
Qed.

Lemma setActiveAccount_invalid s o st :
  includes_colon s = true →
  setActiveAccount s o st
  = (Throw ("Key parameter 'service' cannot contain colon character: " +:+ s), st).
Proof.
  intros H. unfold setActiveAccount. run_monad.
  by rewrite (createServiceKey_invalid Active) by done.
Qed.

Lemma active_of_Some st s a :
  active_of st s = Some a → st !! (s +:+ ":active") = Some (VString a).
Proof.
  unfold active_of. destruct (st !! (s +:+ ":active")) as [[]|]; simpl; congruence.
Qed.

(** Reading the service-scoped records after a write. *)
Lemma active_of_insert_active s a st s' :
  active_of (<[s +:+ ":active" := VString a]> st) s'
  = if decide (s' = s) then Some a else active_of st s'.
Proof.
  unfold active_of. case_decide as E.
  - subst. by rewrite lookup_insert_eq.
  - rewrite lookup_insert_ne; [done|].
    intros H. apply (service_key_inj Active Active) in H. naive_solver.
Qed.

Lemma active_of_delete_active s st s' :
  active_of (delete (s +:+ ":active") st) s'
  = if decide (s' = s) then None else active_of st s'.
Proof.
  unfold active_of. case_decide as E.
  - subst. by rewrite lookup_delete_eq.
  - rewrite lookup_delete_ne; [done|].
    intros H. apply (service_key_inj Active Active) in H. naive_solver.
Qed.

Lemma linked_of_insert_linked s l st s' :
  linked_of (<[s +:+ ":linked" := VArray l]> st) s'
  = if decide (s' = s) then l else linked_of st s'.
Proof.
  unfold linked_of. case_decide as E.
  - subst. by rewrite lookup_insert_eq.
  - rewrite lookup_insert_ne; [done|].
    intros H. apply (service_key_inj Linked Linked) in H. naive_solver.
Qed.

Lemma active_of_insert_linked s l st s' :
  active_of (<[s +:+ ":linked" := VArray l]> st) s' = active_of st s'.
Proof.
  unfold active_of. rewrite lookup_insert_ne; [done|].
  intros H. apply (service_key_inj Linked Active) in H. naive_solver.
Qed.

Lemma linked_of_insert_active s a st s' :
  linked_of (<[s +:+ ":active" := VString a]> st) s' = linked_of st s'.
Proof.
  unfold linked_of. rewrite lookup_insert_ne; [done|].
  intros H. apply (service_key_inj Active Linked) in H. naive_solver.
Qed.

Lemma linked_of_delete_active s st s' :
  linked_of (delete (s +:+ ":active") st) s' = linked_of st s'.
Proof.
  unfold linked_of. rewrite lookup_delete_ne; [done|].
  intros H. apply (service_key_inj Active Linked) in H. naive_solver.
Qed.

(** Account-scoped records never share a key with a service-scoped one. *)
Lemma active_of_insert_account t a s v st s' :
  active_of (<[a +:+ ":" +:+ s +:+ ":" +:+ account_key_type_name t := v]> st) s'
  = active_of st s'.
Proof.
  unfold active_of. rewrite lookup_insert_ne; [done|].
  apply (account_key_not_service_key t a s Active).
Qed.

Lemma linked_of_insert_account t a s v st s' :
  linked_of (<[a +:+ ":" +:+ s +:+ ":" +:+ account_key_type_name t := v]> st) s'
  = linked_of st s'.
Proof.
  unfold linked_of. rewrite lookup_insert_ne; [done|].
  apply (account_key_not_service_key t a s Linked).
Qed.

Lemma active_of_delete_account t a s st s' :
  active_of (delete (a +:+ ":" +:+ s +:+ ":" +:+ account_key_type_name t) st) s'
  = active_of st s'.
Proof.
  unfold active_of. rewrite lookup_delete_ne; [done|].
  apply (account_key_not_service_key t a s Active).
Qed.

Lemma linked_of_delete_account t a s st s' :
  linked_of (delete (a +:+ ":" +:+ s +:+ ":" +:+ account_key_type_name t) st) s'
  = linked_of st s'.
Proof.
  unfold linked_of. rewrite lookup_delete_ne; [done|].
  apply (account_key_not_service_key t a s Linked).
Qed.

(** [addAccount] in closed form. *)
Lemma addAccount_valid a s st :
  includes_colon s = false →
  addAccount {| accountId := a; service := s |} st
  = (Ok tt,
     let st1 := if bool_decide (a ∈ linked_of st s) then st
                else <[s +:+ ":linked" := VArray (linked_of st s ++ [a])]> st in
     match truthy_opt (active_of st s) with
     | None => <[s +:+ ":active" := VString a]> st1
     | Some _ => st1
     end).
Proof.
  intros H. unfold addAccount, bind at 1. simpl.
  rewrite getLinkedAccounts_valid by done.
  unfold bind at 1.
  assert (E : (if bool_decide (a ∈ linked_of st s) then ret ()
               else let* linkedKey := lift_outcome (createServiceKey Linked {| svc_service := s |}) in
                    store_set linkedKey (VArray (linked_of st s ++ [a]))) st
              = (Ok tt, if bool_decide (a ∈ linked_of st s) then st
                        else <[s +:+ ":linked" := VArray (linked_of st s ++ [a])]> st)).
  { case_bool_decide; [done|]. run_monad.
    by rewrite (createServiceKey_valid Linked) by done. }
  rewrite E. clear E. unfold bind. rewrite getActiveAccount_valid by done.
  assert (Ea : active_of (if bool_decide (a ∈ linked_of st s) then st
                          else <[s +:+ ":linked" := VArray (linked_of st s ++ [a])]> st) s
               = active_of st s).
  { case_bool_decide; [done|]. apply active_of_insert_linked. }
  rewrite Ea. destruct (truthy_opt (active_of st s)); [done|].
  by rewrite setActiveAccount_valid by done.
Qed.

Lemma addAccount_invalid a s st :
  includes_colon s = true →
  addAccount {| accountId := a; service := s |} st
  = (Throw ("Key parameter 'service' cannot contain colon character: " +:+ s), st).
Proof.
  intros H. unfold addAccount, bind at 1. simpl.
  by rewrite getLinkedAccounts_invalid by done.
Qed.

(** What [addAccount] leaves in the service-scoped records. *)
Lemma addAccount_spec a s st :
  includes_colon s = false →
  ∃ st', addAccount {| accountId := a; service := s |} st = (Ok tt, st') ∧
    (∀ s', linked_of st' s'
           = if decide (s' = s)
             then (if bool_decide (a ∈ linked_of st s) then linked_of st s
                   else linked_of st s ++ [a])
             else linked_of st s') ∧
    (∀ s', active_of st' s'
           = if decide (s' = s)
             then Some (match truthy_opt (active_of st s) with Some x => x | None => a end)
             else active_of st s').
Proof.
  intros H. eexists. split; [by apply addAccount_valid|]. simpl.
  split; intros s'.
  - destruct (truthy_opt (active_of st s)) eqn:Et;
      [|rewrite linked_of_insert_active];
      (case_bool_decide; [case_decide; by subst | by rewrite linked_of_insert_linked]).
  - destruct (truthy_opt (active_of st s)) as [x|] eqn:Et.
    + apply truthy_opt_Some in Et as [Et _].
      assert (active_of (if bool_decide (a ∈ linked_of st s) then st
                         else <[s +:+ ":linked" := VArray (linked_of st s ++ [a])]> st) s'
              = active_of st s') as ->.
      { case_bool_decide; [done | apply active_of_insert_linked]. }
      case_decide; by subst.
    + rewrite active_of_insert_active. case_decide; [done|].
      case_bool_decide; [done | apply active_of_insert_linked].
Qed.

(** [removeAccount] in closed form. *)
Lemma removeAccount_valid a s st :
  includes_colon a = false → includes_colon s = false →
  removeAccount {| accountId := a; service := s |} st
  = (Ok tt,
     let st1 := delete (a +:+ ":" +:+ s +:+ ":metadata") (delete (a +:+ ":" +:+ s +:+ ":token") st) in
     let filtered := filter (λ id, id ≠ a) (linked_of st s) in
     let st2 := <[s +:+ ":linked" := VArray filtered]> st1 in
     if bool_decide (active_of st s = Some a) then
       match truthy_opt (head filtered) with
       | Some newActive => <[s +:+ ":active" := VString newActive]> st2
       | None => delete (s +:+ ":active") st2
       end
     else st2).
Proof.
  intros Ha Hs. unfold removeAccount. run_monad.
  rewrite !createAccountKey_valid by done. simpl.
  rewrite getLinkedAccounts_valid by done.
  rewrite (createServiceKey_valid Linked) by done. simpl.
  rewrite getActiveAccount_valid by done.
  rewrite active_of_insert_linked.
  rewrite (active_of_delete_account Metadata), (active_of_delete_account Token).
  rewrite (linked_of_delete_account Metadata), (linked_of_delete_account Token).
  case_bool_decide; [|done].
  destruct (truthy_opt (head _)).
  - by rewrite setActiveAccount_valid by done.
  - by rewrite (createServiceKey_valid Active) by done.
Qed.

Lemma removeAccount_invalid a s st :
  includes_colon a = true ∨ includes_colon s = true →
  ∃ msg, removeAccount {| accountId := a; service := s |} st = (Throw msg, st).
Proof.
  intros H. unfold removeAccount. run_monad.
  unfold createAccountKey, account_entries. simpl.
  destruct (includes_colon a); [by eexists|].
  destruct (includes_colon s); [by eexists|]. by destruct H.
Qed.

(** What [removeAccount] leaves in the service-scoped records. *)
Lemma removeAccount_spec a s st :
  includes_colon a = false → includes_colon s = false →
  ∃ st', removeAccount {| accountId := a; service := s |} st = (Ok tt, st') ∧
    (∀ s', linked_of st' s'
           = if decide (s' = s) then filter (λ id, id ≠ a) (linked_of st s)
             else linked_of st s') ∧
    (∀ s', active_of st' s'
           = if decide (s' = s)
             then (if bool_decide (active_of st s = Some a)
                   then truthy_opt (head (filter (λ id, id ≠ a) (linked_of st s)))
                   else active_of st s)
             else active_of st s').
Proof.
  intros Ha Hs. eexists. split; [by apply removeAccount_valid|]. simpl.
  set (st1 := delete _ (delete _ st)).
  assert (Hl1 : ∀ s', linked_of st1 s' = linked_of st s').
  { intros s'. unfold st1.
    by rewrite (linked_of_delete_account Metadata), (linked_of_delete_account Token). }
  assert (Ha1 : ∀ s', active_of st1 s' = active_of st s').
  { intros s'. unfold st1.
    by rewrite (active_of_delete_account Metadata), (active_of_delete_account Token). }
  split; intros s'.
  - case_bool_decide as Eact.
    + destruct (truthy_opt (head _));
        [rewrite linked_of_insert_active | rewrite linked_of_delete_active];
        rewrite linked_of_insert_linked; case_decide; by rewrite ?Hl1.
    + rewrite linked_of_insert_linked; case_decide; by rewrite ?Hl1.
  - case_bool_decide as Eact.
    + destruct (truthy_opt (head _)) eqn:Eh.
      * rewrite active_of_insert_active. case_decide; [done|].
        by rewrite active_of_insert_linked, Ha1.
      * rewrite active_of_delete_active. case_decide; [done|].
        by rewrite active_of_insert_linked, Ha1.
    + rewrite active_of_insert_linked, Ha1. case_decide; by subst.
Qed.

(* ===================================================================== *)
(** ** The directory invariant *)
(* ===================================================================== *)

Lemma active_is_linked_alt st :
  active_is_linked st ↔
  ∀ s a, includes_colon s = false → active_of st s = Some a → a ∈ linked_of st s.
Proof.
  unfold active_is_linked. split.
  - intros H s a Hs Ha.
    destruct (H s a) as (l & Hl & Hin); [by apply returns_getActiveAccount|].
    apply returns_getLinkedAccounts in Hl as [_ <-]. done.
  - intros H s a [Hs Ha]%returns_getActiveAccount.
    exists (linked_of st s). split; [by apply returns_getLinkedAccounts | eauto].
Qed.

Lemma active_is_linked_empty : active_is_linked ∅.
Proof.
  apply active_is_linked_alt. intros s a _. unfold active_of.
  by rewrite lookup_empty.
Qed.

Lemma elem_of_filter_ne (a x : string) (l : list string) :
  x ∈ l → x ≠ a → x ∈ filter (λ id, id ≠ a) l.
Proof. intros. by apply list_elem_of_filter. Qed.

Lemma head_elem_of (l : list string) x : head l = Some x → x ∈ l.
Proof. destruct l; simpl; [done|]. intros [= ->]. apply list_elem_of_here. Qed.

(** A guarded call keeps the invariant, whether it returns or throws. *)
Lemma run_op_active_is_linked op st :
  active_is_linked st → op_guarded st op = true →
  active_is_linked (snd (run_op op st)).
Proof.
  rewrite !active_is_linked_alt. intros Inv Hg.
  destruct op as [[a s]|[a s]|s o]; simpl.
  - (* addAccount *)
    destruct (includes_colon s) eqn:Hs; [by rewrite addAccount_invalid|].
    destruct (addAccount_spec a s st Hs) as (st' & -> & Hl & Hact). simpl.
    intros s' x Hs'. rewrite Hl, Hact. destruct (decide (s' = s)) as [->|E]; [|by apply Inv].
    intros [= <-]. destruct (truthy_opt (active_of st s)) as [y|] eqn:Et.
    + apply truthy_opt_Some in Et as [Et _]. apply Inv in Et; [|done].
      case_bool_decide; [done|]. apply elem_of_app. by left.
    + case_bool_decide; [done|]. apply elem_of_app. right. apply list_elem_of_here.
  - (* removeAccount *)
    destruct (includes_colon a) eqn:Ha.
    { destruct (removeAccount_invalid a s st) as [msg ->]; [by left|]. done. }
    destruct (includes_colon s) eqn:Hs.
    { destruct (removeAccount_invalid a s st) as [msg ->]; [by right|]. done. }
    destruct (removeAccount_spec a s st Ha Hs) as (st' & -> & Hl & Hact). simpl.
    intros s' x Hs'. rewrite Hl, Hact. destruct (decide (s' = s)) as [->|E]; [|by apply Inv].
    case_bool_decide as Eact.
    + intros [Hh _]%truthy_opt_Some. by apply head_elem_of.
    + intros Hx. apply elem_of_filter_ne; [by apply Inv|].
      intros ->. done.
  - (* setActiveAccount *)
    destruct (includes_colon s) eqn:Hs; [by rewrite setActiveAccount_invalid|].
    rewrite setActiveAccount_valid by done. simpl.
    simpl in Hg. rewrite getLinkedAccounts_valid in Hg by done. simpl in Hg.
    intros s' x Hs'. destruct o as [a|].
    + rewrite active_of_insert_active, linked_of_insert_active.
      destruct (decide (s' = s)) as [->|E]; [|by apply Inv].
      intros [= <-]. by apply bool_decide_eq_true in Hg.
    + rewrite active_of_delete_active, linked_of_delete_active.
      destruct (decide (s' = s)) as [->|E]; [done | by apply Inv].
Qed.

(** C1, as amended. From a store in which every readable active account is
    linked, any finite sequence of [addAccount], [removeAccount] and
    [setActiveAccount] calls, in which each [setActiveAccount] deactivates
    or names an account linked for that service when it is called, ends in
    a store in which every readable active account is linked. *)
Theorem active_is_linked_run_ops (ops : list dir_op) (st : store) :
  active_is_linked st → ops_guarded st ops = true →
  active_is_linked (run_ops ops st).
Proof.
  revert st. induction ops as [|op ops IH]; intros st Inv Hg; simpl in *; [done|].
  apply andb_prop in Hg as [Hop Hrest].
  apply IH; [|done]. by apply run_op_active_is_linked.
Qed.

Lemma active_is_linked_run_ops_witness :
  active_is_linked
    (run_ops [OpAdd {| accountId := "a@x.com"; service := "gmail" |};
              OpAdd {| accountId := "b@x.com"; service := "gmail" |};
              OpSetActive "gmail" (Some "b@x.com");
              OpRemove {| accountId := "b@x.com"; service := "gmail" |};
              OpSetActive "gmail" None] ∅).
Proof.
  apply active_is_linked_run_ops; [apply active_is_linked_empty | vm_compute; reflexivity].
Defined.

(** C1 as stated fails: [setActiveAccount] writes the pointer without
    looking at the linked accounts, so one call on the empty store leaves an
    active account that is not linked. *)
Lemma setActiveAccount_breaks_invariant :
  ¬ active_is_linked (run_ops [OpSetActive "gmail" (Some "ghost@x.com")] ∅).
Proof.
  intros H. destruct (H "gmail" "ghost@x.com") as (l & Hl & Hin); [reflexivity|].
  vm_compute in Hl. injection Hl as <-. by apply elem_of_nil in Hin.
Qed.

(* ===================================================================== *)
(** ** Removal, idempotence and the first account *)
(* ===================================================================== *)

(** C4, as amended. When [accountId] is the active account of the service,
    [removeAccount] returns, the linked accounts are the former ones without
    [accountId], the active account is the first of them when that one is
    not the empty string, and when none is left no active account can be
    read. *)
Theorem removeAccount_active (a s : string) (st : store) :
  includes_colon a = false →
  returns (getActiveAccount {| svc_service := s |}) st (Some a) →
  ∃ st' remaining,
    removeAccount {| accountId := a; service := s |} st = (Ok tt, st') ∧
    returns (getLinkedAccounts {| svc_service := s |}) st' remaining ∧
    remaining = filter (λ id, id ≠ a) (linked_of st s) ∧
    (∀ x, head remaining = Some x → x ≠ "" →
          returns (getActiveAccount {| svc_service := s |}) st' (Some x)) ∧
    (remaining = [] →
     returns (getActiveAccount {| svc_service := s |}) st' None ∧
     st' !! (s +:+ ":active") = None).
Proof.
  intros Ha [Hs Hact]%returns_getActiveAccount.
  destruct (removeAccount_spec a s st Ha Hs) as (st' & Hrun & Hl & Hp).
  exists st', (filter (λ id, id ≠ a) (linked_of st s)).
  specialize (Hl s). specialize (Hp s).
  rewrite decide_True in Hl by done. rewrite decide_True in Hp by done.
  rewrite bool_decide_eq_true_2 in Hp by done.
  repeat split; try done.
  - by apply returns_getLinkedAccounts.
  - intros x Hx Hne. apply returns_getActiveAccount. split; [done|].
    rewrite Hp, Hx. simpl. apply truthy_true in Hne. by rewrite Hne.
  - apply returns_getActiveAccount. split; [done|]. by rewrite Hp, H.
  - rewrite removeAccount_valid in Hrun by done. simpl in Hrun.
    rewrite bool_decide_eq_true_2, H in Hrun by done. simpl in Hrun.
    injection Hrun as <-. apply lookup_delete_eq.
Qed.

Lemma removeAccount_active_witness :
  ∃ st' remaining,
    removeAccount {| accountId := "a@x.com"; service := "gmail" |}
      (run_ops [OpAdd {| accountId := "a@x.com"; service := "gmail" |};
                OpAdd {| accountId := "b@x.com"; service := "gmail" |}] ∅) = (Ok tt, st') ∧
    returns (getLinkedAccounts {| svc_service := "gmail" |}) st' remaining ∧
    remaining = ["b@x.com"] ∧
    returns (getActiveAccount {| svc_service := "gmail" |}) st' (Some "b@x.com").
Proof.
  destruct (removeAccount_active "a@x.com" "gmail"
              (run_ops [OpAdd {| accountId := "a@x.com"; service := "gmail" |};
                        OpAdd {| accountId := "b@x.com"; service := "gmail" |}] ∅))
    as (st' & remaining & Hrun & Hl & Hrem & Hsome & _);
    [reflexivity | reflexivity |].
  exists st', remaining. vm_compute in Hrem. subst remaining.
  repeat split; try done. apply Hsome; [reflexivity | discriminate].
Defined.

(** C4 as stated fails when the first account that remains is the empty
    string: the store below is built by two [addAccount] calls, its active
    account is removed, and afterwards the first linked account is [""]
    while no active account can be read. *)
Lemma removeAccount_empty_first_remaining :
  let st := run_ops [OpAdd {| accountId := "a@x.com"; service := "gmail" |};
                     OpAdd {| accountId := ""; service := "gmail" |}] ∅ in
  returns (getActiveAccount {| svc_service := "gmail" |}) st (Some "a@x.com") ∧
  ∃ st', removeAccount {| accountId := "a@x.com"; service := "gmail" |} st = (Ok tt, st') ∧
         returns (getLinkedAccounts {| svc_service := "gmail" |}) st' [""] ∧
         returns (getActiveAccount {| svc_service := "gmail" |}) st' None ∧
         ¬ returns (getActiveAccount {| svc_service := "gmail" |}) st' (Some "").
Proof.
  split; [reflexivity|]. eexists. split; [vm_compute; reflexivity|].
  split; [reflexivity|]. split; [reflexivity|]. vm_compute. discriminate.
Qed.

Lemma count_occ_NoDup_elem (l : list string) (a : string) :
  NoDup l → a ∈ l → count_occ String.string_dec l a = 1.
Proof.
  intros Hnd Hin.
  apply NoDup_ListNoDup in Hnd.
  apply (proj1 (NoDup_count_occ' String.string_dec l) Hnd a).
  by apply list_elem_of_In.
Qed.

(** The linked accounts of every service stay free of duplicates along any
    sequence of directory calls. *)
Lemma run_op_linked_NoDup op st :
  (∀ s, NoDup (linked_of st s)) → ∀ s, NoDup (linked_of (snd (run_op op st)) s).
Proof.
  intros Hnd s'. destruct op as [[a s]|[a s]|s o]; simpl.
  - destruct (includes_colon s) eqn:Hs; [by rewrite addAccount_invalid|].
    destruct (addAccount_spec a s st Hs) as (st' & -> & Hl & _). simpl.
    rewrite Hl. destruct (decide (s' = s)) as [->|]; [|done].
    case_bool_decide as E; [done|].
    apply NoDup_app. split; [done|]. split; [|apply NoDup_singleton].
    intros x Hx ->%list_elem_of_singleton. done.
  - destruct (includes_colon a) eqn:Ha.
    { destruct (removeAccount_invalid a s st) as [msg ->]; [by left|]. done. }
    destruct (includes_colon s) eqn:Hs.
    { destruct (removeAccount_invalid a s st) as [msg ->]; [by right|]. done. }
    destruct (removeAccount_spec a s st Ha Hs) as (st' & -> & Hl & _). simpl.
    rewrite Hl. destruct (decide (s' = s)) as [->|]; [|done].
    by apply NoDup_filter.
  - destruct (includes_colon s) eqn:Hs; [by rewrite setActiveAccount_invalid|].
    rewrite setActiveAccount_valid by done. simpl. destruct o.
    + by rewrite linked_of_insert_active.
    + by rewrite linked_of_delete_active.
Qed.

Lemma run_ops_linked_NoDup ops s : NoDup (linked_of (run_ops ops ∅) s).
Proof.
  assert (H : ∀ st, (∀ s, NoDup (linked_of st s)) → ∀ s, NoDup (linked_of (run_ops ops st) s)).
  { induction ops as [|op ops IH]; intros st Hnd; simpl; [done|].
    apply IH. by apply run_op_linked_NoDup. }
  apply H. intros s0. unfold linked_of. rewrite lookup_empty. apply NoDup_nil_2.
Qed.

(** C5. In a store whose linked accounts hold no duplicate, [addAccount]
    called twice with the same arguments returns both times, the second call
    leaves the store of the first as it is, and the account occurs exactly
    once among the linked accounts. *)
Theorem addAccount_idempotent (a s : string) (st : store) (l : list string) :
  returns (getLinkedAccounts {| svc_service := s |}) st l → NoDup l →
  ∃ st1 l1,
    addAccount {| accountId := a; service := s |} st = (Ok tt, st1) ∧
    addAccount {| accountId := a; service := s |} st1 = (Ok tt, st1) ∧
    returns (getLinkedAccounts {| svc_service := s |}) st1 l1 ∧
    count_occ String.string_dec l1 a = 1.
Proof.
  intros [Hs <-]%returns_getLinkedAccounts Hnd.
  destruct (addAccount_spec a s st Hs) as (st1 & Hrun & Hl & Hp).
  specialize (Hl s). specialize (Hp s). rewrite decide_True in Hl by done. rewrite decide_True in Hp by done.
  assert (Hin : a ∈ linked_of st1 s).
  { rewrite Hl. case_bool_decide; [done|]. apply elem_of_app. right. apply list_elem_of_here. }
  exists st1, (linked_of st1 s). repeat split; try done.
  - rewrite addAccount_valid by done. simpl.
    rewrite bool_decide_eq_true_2 by done. rewrite Hp. f_equal.
    destruct (truthy_opt (Some _)) eqn:Et; [done|].
    apply insert_id, active_of_Some. rewrite Hp. f_equal.
    destruct (truthy_opt (active_of st s)) as [x|] eqn:Ex; [|done].
    apply truthy_opt_Some in Ex as [_ Hx]. simpl in Et.
    apply truthy_true in Hx. by rewrite Hx in Et.
  - by apply returns_getLinkedAccounts.
  - apply count_occ_NoDup_elem; [|done]. rewrite Hl. case_bool_decide as E; [done|].
    apply NoDup_app. split; [done|]. split; [|apply NoDup_singleton].
    intros x Hx ->%list_elem_of_singleton. done.
Qed.

Lemma addAccount_idempotent_witness :
  ∃ st1 l1,
    addAccount {| accountId := "b@x.com"; service := "gmail" |}
      (run_ops [OpAdd {| accountId := "a@x.com"; service := "gmail" |}] ∅) = (Ok tt, st1) ∧
    addAccount {| accountId := "b@x.com"; service := "gmail" |} st1 = (Ok tt, st1) ∧
    returns (getLinkedAccounts {| svc_service := "gmail" |}) st1 l1 ∧
    count_occ String.string_dec l1 "b@x.com" = 1.
Proof.
  apply (addAccount_idempotent "b@x.com" "gmail" _ ["a@x.com"]);
    [reflexivity | apply NoDup_cons; split; [apply not_elem_of_nil | apply NoDup_nil_2]].
Defined.

(** C6, as amended. In a store with no linked account and no active account
    for the service, [addAccount] of an account that is not the empty string
    makes it the active account, and a following [addAccount] of another
    account leaves the active account as it is. *)
Theorem addAccount_first_active (a b s : string) (st : store) :
  returns (getLinkedAccounts {| svc_service := s |}) st [] →
  returns (getActiveAccount {| svc_service := s |}) st None →
  a ≠ "" →
  ∃ st1 st2,
    addAccount {| accountId := a; service := s |} st = (Ok tt, st1) ∧
    returns (getActiveAccount {| svc_service := s |}) st1 (Some a) ∧
    addAccount {| accountId := b; service := s |} st1 = (Ok tt, st2) ∧
    returns (getActiveAccount {| svc_service := s |}) st2 (Some a).
Proof.
  intros [Hs Hl]%returns_getLinkedAccounts [_ Hp]%returns_getActiveAccount Hne.
  destruct (addAccount_spec a s st Hs) as (st1 & Hrun1 & Hl1 & Hp1).
  destruct (addAccount_spec b s st1 Hs) as (st2 & Hrun2 & Hl2 & Hp2).
  specialize (Hp1 s). specialize (Hp2 s). rewrite decide_True in Hp1 by done. rewrite decide_True in Hp2 by done.
  rewrite Hp in Hp1. simpl in Hp1.
  rewrite Hp1 in Hp2. simpl in Hp2.
  apply truthy_true in Hne. rewrite Hne in Hp2.
  exists st1, st2. repeat split; try done; by apply returns_getActiveAccount.
Qed.

Lemma addAccount_first_active_witness :
  ∃ st1 st2,
    addAccount {| accountId := "a@x.com"; service := "gmail" |} ∅ = (Ok tt, st1) ∧
    returns (getActiveAccount {| svc_service := "gmail" |}) st1 (Some "a@x.com") ∧
    addAccount {| accountId := "b@x.com"; service := "gmail" |} st1 = (Ok tt, st2) ∧
    returns (getActiveAccount {| svc_service := "gmail" |}) st2 (Some "a@x.com").
Proof.
  apply (addAccount_first_active "a@x.com" "b@x.com" "gmail" ∅);
    [reflexivity | reflexivity | discriminate].
Defined.

(** C6 as stated fails when the first account is the empty string: it
    becomes the active account, and adding a second account replaces it. *)
Lemma addAccount_empty_first_account :
  returns (getLinkedAccounts {| svc_service := "gmail" |}) ∅ [] ∧
  returns (getActiveAccount {| svc_service := "gmail" |}) ∅ None ∧
  ∃ st1 st2,
    addAccount {| accountId := ""; service := "gmail" |} ∅ = (Ok tt, st1) ∧
    returns (getActiveAccount {| svc_service := "gmail" |}) st1 (Some "") ∧
    addAccount {| accountId := "b@x.com"; service := "gmail" |} st1 = (Ok tt, st2) ∧
    returns (getActiveAccount {| svc_service := "gmail" |}) st2 (Some "b@x.com") ∧
    ¬ returns (getActiveAccount {| svc_service := "gmail" |}) st2 (Some "").
Proof.
  split; [reflexivity|]. split; [reflexivity|].
  eexists. eexists. split; [vm_compute; reflexivity|].
  split; [reflexivity|]. split; [vm_compute; reflexivity|].
  split; [reflexivity|]. vm_compute. discriminate.
Qed.

(* ===================================================================== *)
(** ** Enumeration of the accounts of a service *)
(* ===================================================================== *)

Lemma for_await_keys_ids svc s acc :
  snd (for_await_keys svc s acc) = acc ++ token_account_ids svc (stream_yielded s).
Proof.
  revert acc. induction s as [|key rest IH|msg]; intros acc; simpl.
  - by rewrite app_nil_r.
  - unfold bind.
    destruct (parseTokenKey key) as [parsed|]; [destruct (String.eqb _ _)|]; simpl.
    + specialize (IH (acc ++ [accountId parsed])).
      destruct (for_await_keys svc rest _) as [[]]; simpl in *; by rewrite <- app_assoc in IH.
    + specialize (IH acc). by destruct (for_await_keys svc rest _) as [[]].
    + specialize (IH acc). by destruct (for_await_keys svc rest _) as [[]].
  - by rewrite app_nil_r.
Qed.

Lemma for_await_keys_throws svc s acc :
  fst (for_await_keys svc s acc) = Ok tt ↔ stream_throws s = false.
Proof.
  revert acc. induction s as [|key rest IH|msg]; intros acc; simpl; [done| |done].
  unfold bind.
  destruct (parseTokenKey key) as [parsed|]; [destruct (String.eqb _ _)|]; simpl.
  - specialize (IH (acc ++ [accountId parsed])).
    by destruct (for_await_keys svc rest _) as [[]].
  - specialize (IH acc). by destruct (for_await_keys svc rest _) as [[]].
  - specialize (IH acc). by destruct (for_await_keys svc rest _) as [[]].
Qed.

(** [listAccountIds] never throws, and what it returns is what the keys
    yielded up to the end, or up to the point where iteration threw, give. *)
Lemma listAccountIds_iterator svc s :
  listAccountIds (Some (Ok (Some s))) svc = Ok (token_account_ids svc (stream_yielded s)).
Proof.
  unfold listAccountIds, listAccountIds_try.
  pose proof (for_await_keys_ids svc s []) as E.
  destruct (for_await_keys svc s []) as [[]]; simpl in E; by subst.
Qed.

Lemma listAccountIds_returns iterator svc : ∃ ids, listAccountIds iterator svc = Ok ids.
Proof.
  unfold listAccountIds. destruct (listAccountIds_try iterator svc []) as [[]]; eauto.
Qed.

Lemma listAccountIds_no_enumeration svc msg :
  listAccountIds None svc = Ok [] ∧
  listAccountIds (Some (Ok None)) svc = Ok [] ∧
  listAccountIds (Some (Throw msg)) svc = Ok [].
Proof. done. Qed.

(** C8 at the failing input: the iterator yields one token key of the
    service and then throws; the account of that key is returned, where the
    comment of the [catch] block and the claim say an empty array is. *)
Theorem listAccountIds_throw_after_yield :
  stream_throws (StreamYield "a@x.com:gmail:token" (StreamThrow "iteration failed")) = true ∧
  listAccountIds
    (Some (Ok (Some (StreamYield "a@x.com:gmail:token" (StreamThrow "iteration failed")))))
    "gmail" = Ok ["a@x.com"].
Proof. split; reflexivity. Qed.

(* ===================================================================== *)
(** ** Lookup by email or alias *)
(* ===================================================================== *)

Lemma returns_run {S A} (m : M S A) (s : S) (a : A) :
  returns m s a → snd (m s) = s → m s = (Ok a, s).
Proof. unfold returns. destruct (m s); simpl. by intros -> ->. Qed.

Lemma getAccountInfo_valid a s st :
  includes_colon a = false → includes_colon s = false →
  getAccountInfo {| accountId := a; service := s |} st
  = (Ok (as_info (st !! (a +:+ ":" +:+ s +:+ ":metadata"))), st).
Proof.
  intros Ha Hs. unfold getAccountInfo. run_monad.
  by rewrite createAccountKey_valid by done.
Qed.

Lemma setAccountInfo_valid a s info st :
  includes_colon a = false → includes_colon s = false →
  setAccountInfo {| accountId := a; service := s |} info st
  = (Ok tt, <[a +:+ ":" +:+ s +:+ ":metadata" := VInfo info]> st).
Proof.
  intros Ha Hs. unfold setAccountInfo. run_monad.
  by rewrite createAccountKey_valid by done.
Qed.

Lemma getAccountInfo_pure p st : snd (getAccountInfo p st) = st.
Proof.
  unfold getAccountInfo. run_monad. by destruct (createAccountKey Metadata p).
Qed.

Lemma search_by_alias_pure svc reference ids st :
  snd (search_by_alias svc reference ids st) = st.
Proof.
  induction ids as [|id rest IH]; simpl; [done|].
  unfold bind. pose proof (getAccountInfo_pure {| accountId := id; service := svc |} st) as E.
  destruct (getAccountInfo _ st) as [[info|msg] st']; simpl in E; subst st'; [|done].
  by case_bool_decide.
Qed.

Lemma findAccountByEmailOrAlias_pure svc reference st :
  snd (findAccountByEmailOrAlias svc reference st) = st.
Proof.
  unfold findAccountByEmailOrAlias, bind.
  destruct (includes_colon svc) eqn:Hs.
  - by rewrite getLinkedAccounts_invalid.
  - rewrite getLinkedAccounts_valid by done.
    case_bool_decide; [done | apply search_by_alias_pure].
Qed.

Lemma findAccountByEmailOrAlias_service svc reference st found :
  returns (findAccountByEmailOrAlias svc reference) st found →
  includes_colon svc = false.
Proof.
  unfold returns, findAccountByEmailOrAlias, bind.
  destruct (includes_colon svc) eqn:Hs; [|done].
  by rewrite getLinkedAccounts_invalid.
Qed.

(** The lookup is by exact identifier first. *)
Lemma findAccountByEmailOrAlias_exact svc reference st :
  includes_colon svc = false → reference ∈ linked_of st svc →
  findAccountByEmailOrAlias svc reference st = (Ok (Some reference), st).
Proof.
  intros Hs Hin. unfold findAccountByEmailOrAlias, bind.
  rewrite getLinkedAccounts_valid by done. by rewrite bool_decide_eq_true_2.
Qed.

(** Otherwise it is by alias, and the first linked account that holds the
    alias wins. *)
Lemma search_by_alias_first svc reference pre acct post st :
  includes_colon svc = false →
  Forall (λ id, includes_colon id = false ∧ alias_of st svc id ≠ Some reference) pre →
  includes_colon acct = false → alias_of st svc acct = Some reference →
  search_by_alias svc reference (pre ++ acct :: post) st = (Ok (Some acct), st).
Proof.
  intros Hs Hpre Ha Hal. induction Hpre as [|id pre [Hid Hne] _ IH]; simpl.
  - unfold bind. rewrite getAccountInfo_valid by done. fold (alias_of st svc acct).
    by rewrite bool_decide_eq_true_2.
  - unfold bind. rewrite getAccountInfo_valid by done. fold (alias_of st svc id).
    by rewrite bool_decide_eq_false_2.
Qed.

Lemma findAccountByEmailOrAlias_alias svc reference pre acct post st :
  includes_colon svc = false →
  reference ∉ linked_of st svc →
  linked_of st svc = pre ++ acct :: post →
  Forall (λ id, includes_colon id = false ∧ alias_of st svc id ≠ Some reference) pre →
  includes_colon acct = false → alias_of st svc acct = Some reference →
  findAccountByEmailOrAlias svc reference st = (Ok (Some acct), st).
Proof.
  intros Hs Hnin Hl Hpre Ha Hal. unfold findAccountByEmailOrAlias, bind.
  rewrite getLinkedAccounts_valid by done.
  rewrite bool_decide_eq_false_2 by done. rewrite Hl.
  by apply search_by_alias_first.
Qed.

(** What the lookup finds is a linked account. *)
Lemma search_by_alias_elem_of svc reference ids st acct :
  returns (search_by_alias svc reference ids) st (Some acct) → acct ∈ ids.
Proof.
  unfold returns. induction ids as [|id rest IH]; simpl; [done|].
  unfold bind. pose proof (getAccountInfo_pure {| accountId := id; service := svc |} st) as E.
  destruct (getAccountInfo _ st) as [[info|msg] st']; simpl in E; subst st'; [|done].
  case_bool_decide.
  - intros [= ->]. apply list_elem_of_here.
  - intros H'. apply list_elem_of_further. by apply IH.
Qed.

Lemma findAccountByEmailOrAlias_linked svc reference st acct :
  returns (findAccountByEmailOrAlias svc reference) st (Some acct) →
  acct ∈ linked_of st svc.
Proof.
  intros H. pose proof (findAccountByEmailOrAlias_service _ _ _ _ H) as Hs.
  revert H. unfold returns, findAccountByEmailOrAlias, bind.
  rewrite getLinkedAccounts_valid by done. case_bool_decide as E.
  - by intros [= <-].
  - apply search_by_alias_elem_of.
Qed.

(* ===================================================================== *)
(** ** account-remove *)
(* ===================================================================== *)




(* ===================================================================== *)
(** ** account-switch *)
(* ===================================================================== *)

Lemma lift_store_run {A} (m : M store A) (w : world) r st' :
  m (kv w) = (r, st') →
  lift_store m w = (r, {| kv := st'; auth_calls := auth_calls w |}).
Proof. unfold lift_store. by intros ->. Qed.

Section SwitchFacts.

Variable svc : string.
Variable getAccessToken : string -> M store string.
Variables uuid now : string.

(** Without a truthy active account after the flow, nothing is written. *)
Lemma switch_oauth_no_active params existing w tok st' o :
  getAccessToken ("new:" +:+ uuid) (kv w) = (Ok tok, st') →
  returns (getActiveAccount {| svc_service := svc |}) st' o →
  truthy_opt o = None →
  switch_oauth svc getAccessToken uuid now params existing w
  = (Throw "OAuth flow completed without setting an active account",
     {| kv := st'; auth_calls := ("new:" +:+ uuid) :: auth_calls w |}).
Proof.
  intros Hauth [Hs Ho]%returns_getActiveAccount Ht.
  unfold switch_oauth, bind, call_getAccessToken. rewrite Hauth.
  unfold lift_store. simpl. rewrite getActiveAccount_valid by done.
  by rewrite Ho, Ht.
Qed.

(** With a truthy active account after the flow, the handler returns; the
    store it leaves is the one of the flow with the account added when it is
    new, its metadata replaced and the active account written. *)
Lemma switch_oauth_active params existing w tok st' e :
  getAccessToken ("new:" +:+ uuid) (kv w) = (Ok tok, st') →
  returns (getActiveAccount {| svc_service := svc |}) st' (Some e) →
  e ≠ "" → includes_colon e = false →
  let new := negb (bool_decide (e ∈ existing)) in
  let st_a := if new then snd (addAccount {| accountId := e; service := svc |} st') else st' in
  let info := {| email := e;
                 alias := truthy_opt (arg_alias params);
                 addedAt := if new then now
                            else match as_info (st_a !! (e +:+ ":" +:+ svc +:+ ":metadata")) with
                                 | Some i => addedAt i
                                 | None => now
                                 end;
                 lastUsed := None;
                 metadata := None |} in
  ∃ r,
    switch_oauth svc getAccessToken uuid now params existing w
    = (Ok r,
       {| kv := <[svc +:+ ":active" := VString e]>
                  (<[e +:+ ":" +:+ svc +:+ ":metadata" := VInfo info]> st_a);
          auth_calls := ("new:" +:+ uuid) :: auth_calls w |}) ∧
    res_email r = e ∧ isNew r = new.
Proof.
  intros Hauth [Hs Ho]%returns_getActiveAccount Hne He. simpl.
  unfold switch_oauth, bind at 1, call_getAccessToken. rewrite Hauth.
  unfold bind at 1, lift_store at 1. simpl. rewrite getActiveAccount_valid by done.
  rewrite Ho. simpl. apply truthy_true in Hne. rewrite Hne.
  destruct (bool_decide (e ∈ existing)) eqn:Ein; simpl.
  - unfold bind, lift_store, ret. simpl.
    rewrite getAccountInfo_valid by done.
    rewrite setAccountInfo_valid by done.
    rewrite setActiveAccount_valid by done. eauto.
  - unfold bind, lift_store, ret. simpl.
    rewrite addAccount_valid by done. simpl.
    rewrite getAccountInfo_valid by done.
    rewrite setAccountInfo_valid by done.
    rewrite setActiveAccount_valid by done. eauto.
Qed.

(** The path to the interactive flow. *)
Lemma account_switch_try_oauth params w :
  includes_colon svc = false →
  takes_oauth_path svc params (kv w) →
  account_switch_try svc getAccessToken uuid now params w
  = switch_oauth svc getAccessToken uuid now params (linked_of (kv w) svc) w.
Proof.
  intros Hs Hpath. unfold account_switch_try, bind at 1.
  rewrite (lift_store_run _ w _ _ (getLinkedAccounts_valid svc (kv w) Hs)).
  destruct w as [st calls]. simpl in *. unfold takes_oauth_path in Hpath.
  destruct (truthy_opt (arg_email params)) as [reference|]; [|done].
  destruct Hpath as (found & Hfound & Ht).
  apply returns_run in Hfound; [|apply findAccountByEmailOrAlias_pure].
  unfold bind. rewrite (lift_store_run _ {| kv := st; auth_calls := calls |} _ _ Hfound).
  simpl. by rewrite Ht.
Qed.

End SwitchFacts.

(** C10, as amended. On the path to the interactive flow, when the flow
    returns, the handler reads the active account from the store the flow
    left, whatever token the flow returned. When no truthy active account is
    there, it throws "OAuth flow completed without setting an active
    account" and has written nothing itself: the store is the one the flow
    left. When a valid account is there, the handler returns with that
    account as [email]. *)
Theorem account_switch_email_from_pointer
    (svc : string) (getAccessToken : string -> M store string) (uuid now : string)
    (params : SwitchParams) (w : world) (tok : string) (st' : store) (o : option string) :
  takes_oauth_path svc params (kv w) →
  getAccessToken ("new:" +:+ uuid) (kv w) = (Ok tok, st') →
  returns (getActiveAccount {| svc_service := svc |}) st' o →
  match truthy_opt o with
  | None =>
      account_switch svc getAccessToken uuid now params w
      = (Throw ("Error switching " +:+ svc
                +:+ " account: OAuth flow completed without setting an active account"),
         {| kv := st'; auth_calls := ("new:" +:+ uuid) :: auth_calls w |})
  | Some e =>
      includes_colon e = false →
      ∃ r w', account_switch svc getAccessToken uuid now params w = (Ok r, w') ∧
              res_email r = e
  end.
Proof.
  intros Hpath Hauth Ho.
  pose proof (proj1 (returns_getActiveAccount _ _ _) Ho) as [Hs _].
  unfold account_switch, try_catch.
  rewrite account_switch_try_oauth by done.
  destruct (truthy_opt o) as [e|] eqn:Et.
  - intros He. apply truthy_opt_Some in Et as [-> Hne].
    destruct (switch_oauth_active svc getAccessToken uuid now params
                (linked_of (kv w) svc) w tok st' e) as (r & -> & Hr & _); eauto.
  - by rewrite (switch_oauth_no_active svc getAccessToken uuid now params _ w tok st' o).
Qed.

Lemma account_switch_email_from_pointer_witness :
  let w := {| kv := run_ops [OpAdd {| accountId := "user1@gmail.com"; service := "gmail" |}] ∅;
              auth_calls := [] |} in
  account_switch "gmail" forgetful_flow "1b4e28ba" "2024-02-02T00:00:00.000Z"
    {| arg_email := Some "user2@gmail.com"; arg_alias := None |} w
  = (Throw "Error switching gmail account: OAuth flow completed without setting an active account",
     {| kv := <["user2@gmail.com:gmail:token" := VToken "credential"]>
                (delete "gmail:active" (kv w));
        auth_calls := ["new:1b4e28ba"] |}) ∧
  ∃ r w',
    account_switch "gmail" (flow_activating "user2@gmail.com") "1b4e28ba"
      "2024-02-02T00:00:00.000Z"
      {| arg_email := Some "user2@gmail.com"; arg_alias := None |} w = (Ok r, w') ∧
    res_email r = "user2@gmail.com".
Proof.
  split.
  - refine (account_switch_email_from_pointer "gmail" forgetful_flow "1b4e28ba"
              "2024-02-02T00:00:00.000Z"
              {| arg_email := Some "user2@gmail.com"; arg_alias := None |}
              {| kv := run_ops [OpAdd {| accountId := "user1@gmail.com"; service := "gmail" |}] ∅;
                 auth_calls := [] |} "access-token" _ None _ _ _).
    + exists None. split; vm_compute; reflexivity.
    + reflexivity.
    + vm_compute. reflexivity.
  - refine (account_switch_email_from_pointer "gmail" (flow_activating "user2@gmail.com")
              "1b4e28ba" "2024-02-02T00:00:00.000Z"
              {| arg_email := Some "user2@gmail.com"; arg_alias := None |}
              {| kv := run_ops [OpAdd {| accountId := "user1@gmail.com"; service := "gmail" |}] ∅;
                 auth_calls := [] |} "access-token" _ (Some "user2@gmail.com") _ _ _ _).
    + exists None. split; vm_compute; reflexivity.
    + reflexivity.
    + vm_compute. reflexivity.
    + reflexivity.
Defined.

(** C10 as stated fails in its last clause: the store after the failure is
    the one the flow left, not the one before the call. Here an account is
    linked and active, the flow stores a credential and leaves no active
    account; the handler throws the error, and afterwards the active account
    and the credential are not what they were before the call. *)
Lemma account_switch_flow_changes_store :
  let w := {| kv := run_ops [OpAdd {| accountId := "user1@gmail.com"; service := "gmail" |}] ∅;
              auth_calls := [] |} in
  takes_oauth_path "gmail" {| arg_email := None; arg_alias := None |} (kv w) ∧
  returns (getActiveAccount {| svc_service := "gmail" |}) (kv w) (Some "user1@gmail.com") ∧
  returns (getToken {| accountId := "user2@gmail.com"; service := "gmail" |}) (kv w) None ∧
  ∃ w',
    account_switch "gmail" forgetful_flow "1b4e28ba" "2024-02-02T00:00:00.000Z"
      {| arg_email := None; arg_alias := None |} w
    = (Throw "Error switching gmail account: OAuth flow completed without setting an active account",
       w') ∧
    returns (getActiveAccount {| svc_service := "gmail" |}) (kv w') None ∧
    returns (getToken {| accountId := "user2@gmail.com"; service := "gmail" |}) (kv w')
      (Some "credential") ∧
    kv w' ≠ kv w.
Proof.
  simpl. split; [exact I|]. split; [reflexivity|]. split; [reflexivity|].
  eexists. split; [vm_compute; reflexivity|]. simpl.
  split; [reflexivity|]. split; [reflexivity|].
  intros E. apply (f_equal (λ m : store, m !! "gmail:active")) in E.
  vm_compute in E. discriminate.
Qed.

(** On the path to the interactive flow, for an account that was linked
    before the call: the handler adds no account, and the metadata it writes
    carries the alias of the arguments only, none when none was given. *)
Lemma account_switch_existing_account
    (svc : string) (getAccessToken : string -> M store string) (uuid now : string)
    (params : SwitchParams) (w : world) (tok : string) (st' : store) (e : string) :
  takes_oauth_path svc params (kv w) →
  getAccessToken ("new:" +:+ uuid) (kv w) = (Ok tok, st') →
  returns (getActiveAccount {| svc_service := svc |}) st' (Some e) →
  e ≠ "" → includes_colon e = false →
  e ∈ linked_of (kv w) svc →
  ∃ r w' info,
    account_switch svc getAccessToken uuid now params w = (Ok r, w') ∧
    isNew r = false ∧
    linked_of (kv w') svc = linked_of st' svc ∧
    returns (getAccountInfo {| accountId := e; service := svc |}) (kv w') (Some info) ∧
    alias info = truthy_opt (arg_alias params).
Proof.
  intros Hpath Hauth Ho Hne He Hin.
  pose proof (proj1 (returns_getActiveAccount _ _ _) Ho) as [Hs _].
  unfold account_switch, try_catch.
  rewrite account_switch_try_oauth by done.
  destruct (switch_oauth_active svc getAccessToken uuid now params
              (linked_of (kv w) svc) w tok st' e) as (r & -> & Hr & Hnew); try done.
  rewrite bool_decide_eq_true_2 in Hnew by done. simpl in *.
  rewrite bool_decide_eq_true_2 by done. simpl.
  eexists r, _, _. split; [done|]. split; [done|]. simpl. split.
  - by rewrite linked_of_insert_active, (linked_of_insert_account Metadata).
  - split.
    + unfold returns. rewrite getAccountInfo_valid by done. simpl.
      rewrite lookup_insert_ne; [by rewrite lookup_insert_eq|].
      intros H. symmetry in H.
      by apply (account_key_not_service_key Metadata e svc Active) in H.
    + reflexivity.
Qed.

(** C3 at the failing input: one account is linked and active and has the
    alias "work"; [account-switch] is called with no argument and the flow
    authorizes that account again. No account is added, and the alias is
    gone from the metadata, where the claim says it is kept. *)
Theorem account_switch_reauth_drops_alias :
  let a := "a@x.com" in
  let w := {| kv := store_with_alias [a] a; auth_calls := [] |} in
  returns (getLinkedAccounts {| svc_service := "gmail" |}) (kv w) [a] ∧
  returns (getAccountInfo {| accountId := a; service := "gmail" |}) (kv w)
    (Some {| email := a; alias := Some "work"; addedAt := "2024-01-01T00:00:00.000Z";
             lastUsed := None; metadata := None |}) ∧
  ∃ r w',
    account_switch "gmail" quiet_flow "1b4e28ba" "2024-02-02T00:00:00.000Z"
      {| arg_email := None; arg_alias := None |} w = (Ok r, w') ∧
    res_email r = a ∧ isNew r = false ∧
    returns (getLinkedAccounts {| svc_service := "gmail" |}) (kv w') [a] ∧
    returns (getAccountInfo {| accountId := a; service := "gmail" |}) (kv w')
      (Some {| email := a; alias := None; addedAt := "2024-01-01T00:00:00.000Z";
               lastUsed := None; metadata := None |}).
Proof.
  simpl. split; [reflexivity|]. split; [reflexivity|].
  eexists _, _. split; [vm_compute; reflexivity|]. repeat split; reflexivity.
Qed.




(** It fails as well when an [alias] argument is given and the account the
    reference resolves to contains a colon, which [addAccount] accepts: the
    active account is written, the metadata key is refused and the handler
    throws. *)
Lemma account_switch_colon_account :
  let w := {| kv := run_ops [OpAdd {| accountId := "urn:42"; service := "gmail" |}] ∅;
              auth_calls := [] |} in
  returns (findAccountByEmailOrAlias "gmail" "urn:42") (kv w) (Some "urn:42") ∧
  ∃ w',
    account_switch "gmail" quiet_flow "1b4e28ba" "2024-02-02T00:00:00.000Z"
      {| arg_email := Some "urn:42"; arg_alias := Some "work" |} w
    = (Throw "Error switching gmail account: Key parameter 'accountId' cannot contain colon character: urn:42", w') ∧
    auth_calls w' = [].
Proof.
  simpl. split; [reflexivity|].
  eexists. split; [vm_compute; reflexivity | reflexivity].
Qed.

(* ===================================================================== *)
(** ** The typing discipline of the store *)
(* ===================================================================== *)

Lemma store_typed_active st s v :
  store_typed st → st !! (s +:+ ":active") = Some v → ∃ a, v = VString a.
Proof.
  intros Ht Hv. specialize (Ht _ _ Hv). unfold record_typed in Ht.
  rewrite (service_key_last Active) in Ht. destruct v; try done. eauto.
Qed.

Lemma store_typed_linked st s v :
  store_typed st → st !! (s +:+ ":linked") = Some v → ∃ l, v = VArray l.
Proof.
  intros Ht Hv. specialize (Ht _ _ Hv). unfold record_typed in Ht.
  rewrite (service_key_last Linked) in Ht. destruct v; try done. eauto.
Qed.

Lemma store_typed_insert_active st s a :
  store_typed st → store_typed (<[s +:+ ":active" := VString a]> st).
Proof. intros. apply map_Forall_insert_2; [apply (service_key_last Active) | done]. Qed.

Lemma store_typed_insert_linked st s l :
  store_typed st → store_typed (<[s +:+ ":linked" := VArray l]> st).
Proof. intros. apply map_Forall_insert_2; [apply (service_key_last Linked) | done]. Qed.

Lemma run_op_store_typed op st : store_typed st → store_typed (snd (run_op op st)).
Proof.
  intros Ht. destruct op as [[a s]|[a s]|s o]; simpl.
  - destruct (includes_colon s) eqn:Hs; [by rewrite addAccount_invalid|].
    rewrite addAccount_valid by done. simpl.
    assert (store_typed (if bool_decide (a ∈ linked_of st s) then st
                         else <[s +:+ ":linked" := VArray (linked_of st s ++ [a])]> st)).
    { case_bool_decide; [done | by apply store_typed_insert_linked]. }
    destruct (truthy_opt (active_of st s)); [done | by apply store_typed_insert_active].
  - destruct (includes_colon a) eqn:Ha.
    { destruct (removeAccount_invalid a s st) as [msg ->]; [by left|]. done. }
    destruct (includes_colon s) eqn:Hs.
    { destruct (removeAccount_invalid a s st) as [msg ->]; [by right|]. done. }
    rewrite removeAccount_valid by done. simpl.
    set (st2 := <[s +:+ ":linked" := _]> _).
    assert (store_typed st2).
    { apply store_typed_insert_linked. by do 2 apply map_Forall_delete. }
    case_bool_decide; [|done].
    destruct (truthy_opt (head _));
      [by apply store_typed_insert_active | by apply map_Forall_delete].
  - destruct (includes_colon s) eqn:Hs; [by rewrite setActiveAccount_invalid|].
    rewrite setActiveAccount_valid by done. simpl. destruct o.
    + by apply store_typed_insert_active.
    + by apply map_Forall_delete.
Qed.

Lemma run_ops_store_typed ops : store_typed (run_ops ops ∅).
Proof.
  assert (H : ∀ st, store_typed st → store_typed (run_ops ops st)).
  { induction ops as [|op ops IH]; intros st Ht; simpl; [done|].
    apply IH. by apply run_op_store_typed. }
  apply H. apply map_Forall_empty.
Qed.

(* ===================================================================== *)
(** ** The scenario of the specification *)
(* ===================================================================== *)

Example scenario_gmail :
  let s1 := run_ops [OpAdd {| accountId := "a@x.com"; service := "gmail" |}] ∅ in
  let s2 := run_ops [OpAdd {| accountId := "b@x.com"; service := "gmail" |}] s1 in
  let s3 := run_ops [OpRemove {| accountId := "a@x.com"; service := "gmail" |}] s2 in
  (active_of s1 "gmail" = Some "a@x.com" ∧ linked_of s1 "gmail" = ["a@x.com"]) ∧
  (active_of s2 "gmail" = Some "a@x.com" ∧ linked_of s2 "gmail" = ["a@x.com"; "b@x.com"]) ∧
  (active_of s3 "gmail" = Some "b@x.com" ∧ linked_of s3 "gmail" = ["b@x.com"]).
Proof. repeat split; reflexivity. Qed.

(* ===================================================================== *)
(** ** The key codec: injectivity, disjoint kinds and parsing *)
(* ===================================================================== *)

Lemma split_colon_concat k : String.concat ":" (split_colon k) = k.
Proof.
  induction k as [|c k IH]; simpl; [done|].
  pose proof (split_colon_nonempty k) as Hne.
  destruct (Ascii.eqb_spec c ":") as [->|Hc].
  - destruct (split_colon k) as [|p ps] eqn:E; [done|].
    change (String.concat ":" ("" :: p :: ps)) with (":" +:+ String.concat ":" (p :: ps)).
    by rewrite IH.
  - destruct (split_colon k) as [|p ps] eqn:E; [done|].
    destruct ps as [|q qs]; simpl in *; by rewrite <- IH.
Qed.

Lemma split_colon_parts k : Forall (λ p, includes_colon p = false) (split_colon k).
Proof.
  induction k as [|c k IH]; simpl; [by repeat constructor|].
  destruct (Ascii.eqb c ":") eqn:Ec; [by constructor|].
  destruct (split_colon k) as [|p ps]; [repeat constructor; simpl; by rewrite Ec|].
  inversion IH; subst. constructor; [simpl; by rewrite Ec | done].
Qed.

Lemma account_key_type_name_no_colon t : includes_colon (account_key_type_name t) = false.
Proof. by destruct t. Qed.

Lemma account_key_type_name_inj t t' :
  account_key_type_name t = account_key_type_name t' → t = t'.
Proof. by destruct t, t'. Qed.

Lemma split_colon_account_key t a s :
  includes_colon a = false → includes_colon s = false →
  split_colon (a +:+ ":" +:+ s +:+ ":" +:+ account_key_type_name t)
  = [a; s; account_key_type_name t].
Proof.
  intros Ha Hs. rewrite split_colon_segment by done.
  rewrite split_colon_segment by done.
  by rewrite split_colon_no_colon by apply account_key_type_name_no_colon.
Qed.

Lemma split_colon_service_key t s :
  includes_colon s = false →
  split_colon (s +:+ ":" +:+ service_key_type_name t) = [s; service_key_type_name t].
Proof.
  intros Hs. rewrite split_colon_segment by done.
  by rewrite split_colon_no_colon by (by destruct t).
Qed.

(** X1. Account keys are injective: when [createAccountKey] returns the
    same key for two types and two parameter objects, the types are the same
    and so are the account and the service. *)
Theorem createAccountKey_inj (t t' : AccountKeyType) (p p' : AccountKeyParams) (k : string) :
  createAccountKey t p = Ok k → createAccountKey t' p' = Ok k → t = t' ∧ p = p'.
Proof.
  intros (Ha & Hs & ->)%createAccountKey_Ok (Ha' & Hs' & E)%createAccountKey_Ok.
  apply (f_equal split_colon) in E.
  rewrite !split_colon_account_key in E by done.
  injection E as E1 E2 E3. apply account_key_type_name_inj in E3.
  destruct p, p'; simpl in *. by subst.
Qed.

Lemma createAccountKey_inj_witness :
  Token = Token ∧
  {| accountId := "user@gmail.com"; service := "gmail" |}
  = {| accountId := "user@gmail.com"; service := "gmail" |}.
Proof.
  apply (createAccountKey_inj Token Token _ _ "user@gmail.com:gmail:token"); reflexivity.
Defined.

(** X2. Service keys are injective, and no service key is an account key:
    the five kinds of record never share a key. *)
Theorem createServiceKey_inj (t t' : ServiceKeyType) (p p' : ServiceKeyParams) (k : string) :
  createServiceKey t p = Ok k →
  (createServiceKey t' p' = Ok k → t = t' ∧ p = p') ∧
  (∀ ta pa, createAccountKey ta pa ≠ Ok k).
Proof.
  destruct p as [s]. intros H. unfold createServiceKey in H.
  rewrite validateKeyParams_service in H.
  destruct (includes_colon s) eqn:Hs; [done|]. injection H as <-. split.
  - destruct p' as [s']. unfold createServiceKey.
    rewrite validateKeyParams_service.
    destruct (includes_colon s'); [done|]. simpl. intros [= E].
    apply service_key_inj in E as [-> ->]. done.
  - intros ta pa (_ & _ & E)%createAccountKey_Ok.
    symmetry in E. by apply account_key_not_service_key in E.
Qed.

Lemma createServiceKey_inj_witness :
  (createServiceKey Active {| svc_service := "gmail" |} = Ok "gmail:active" →
   Active = Active ∧ {| svc_service := "gmail" |} = {| svc_service := "gmail" |}) ∧
  (∀ ta pa, createAccountKey ta pa ≠ Ok "gmail:active").
Proof.
  apply (createServiceKey_inj Active Active {| svc_service := "gmail" |}). reflexivity.
Defined.

(** X3. Parsing is the inverse of building a token key: a key that
    [parseTokenKey] accepts is the key [createAccountKey] builds from the
    parsed parameters, which are not empty. *)
Theorem createAccountKey_parseTokenKey (k : string) (p : AccountKeyParams) :
  parseTokenKey k = Some p →
  createAccountKey Token p = Ok k ∧ accountId p ≠ "" ∧ service p ≠ "".
Proof.
  unfold parseTokenKey. intros H.
  pose proof (split_colon_concat k) as Hk. pose proof (split_colon_parts k) as Hp.
  destruct (split_colon k) as [|p0 [|p1 [|p2 [|]]]]; try done.
  destruct (String.eqb p2 "token") eqn:E2; [|done].
  apply String.eqb_eq in E2. subst p2. simpl in H.
  destruct (truthy p0) eqn:T0; [|done]. destruct (truthy p1) eqn:T1; [|done].
  simpl in H. injection H as <-. simpl in Hk.
  inversion Hp as [|? ? H0 Hp']; subst. inversion Hp' as [|? ? H1 _]; subst.
  split; [|split; by apply truthy_true].
  by rewrite createAccountKey_valid by done.
Qed.

Lemma createAccountKey_parseTokenKey_witness :
  createAccountKey Token {| accountId := "work@company.com"; service := "sheets" |}
  = Ok "work@company.com:sheets:token" ∧ "work@company.com" ≠ "" ∧ "sheets" ≠ "".
Proof.
  apply (createAccountKey_parseTokenKey "work@company.com:sheets:token"
           {| accountId := "work@company.com"; service := "sheets" |}).
  reflexivity.
Defined.

(** X4. [parseTokenKey] accepts none of the other keys of the codec:
    metadata and client-registration keys and the two service keys give
    [undefined]. *)
Theorem parseTokenKey_other_kinds (k : string) :
  (∃ t p, t ≠ Token ∧ createAccountKey t p = Ok k) ∨
  (∃ t p, createServiceKey t p = Ok k) →
  parseTokenKey k = None.
Proof.
  intros [(t & p & Ht & (Ha & Hs & ->)%createAccountKey_Ok) | (t & [s] & H)].
  - unfold parseTokenKey. rewrite split_colon_account_key by done.
    by destruct t.
  - unfold createServiceKey in H. rewrite validateKeyParams_service in H.
    destruct (includes_colon s) eqn:Hs; [done|]. injection H as <-.
    unfold parseTokenKey. by rewrite split_colon_service_key.
Qed.

Lemma parseTokenKey_other_kinds_witness :
  parseTokenKey "user@gmail.com:gmail:metadata" = None.
Proof.
  apply parseTokenKey_other_kinds. left.
  exists Metadata, {| accountId := "user@gmail.com"; service := "gmail" |}.
  split; [discriminate | reflexivity].
Defined.

Lemma stream_yielded_of_keys keys : stream_yielded (stream_of_keys keys) = keys.
Proof. induction keys as [|k ks IH]; simpl; [done | by rewrite IH]. Qed.

Lemma parseTokenKey_token_key a s :
  includes_colon a = false → includes_colon s = false → a ≠ "" → s ≠ "" →
  parseTokenKey (a +:+ ":" +:+ s +:+ ":token") = Some {| accountId := a; service := s |}.
Proof.
  intros Ha Hs Hane%truthy_true Hsne%truthy_true. unfold parseTokenKey.
  rewrite (split_colon_account_key Token) by done. simpl. by rewrite Hane, Hsne.
Qed.

Lemma parseTokenKey_metadata_key a s :
  includes_colon a = false → includes_colon s = false →
  parseTokenKey (a +:+ ":" +:+ s +:+ ":metadata") = None.
Proof.
  intros Ha Hs. unfold parseTokenKey.
  by rewrite (split_colon_account_key Metadata) by done.
Qed.

(** X5. [listAccountIds] over a store that holds a token and a metadata
    record for each of some accounts, with valid and non-empty identifiers:
    it returns the accounts that have a token for the service, in the order
    of the keys, and nothing for the metadata records. *)
Theorem listAccountIds_token_keys (svc : string) (ps : list AccountKeyParams) :
  Forall (λ p, valid_params p ∧ accountId p ≠ "" ∧ service p ≠ "") ps →
  listAccountIds
    (Some (Ok (Some (stream_of_keys (flat_map (λ p, [token_key p; metadata_key p]) ps))))) svc
  = Ok (map accountId (filter (λ p, service p = svc) ps)).
Proof.
  intros Hps. rewrite listAccountIds_iterator, stream_yielded_of_keys. f_equal.
  induction Hps as [|[a s] ps ([Ha Hs] & Hane & Hsne) _ IH]; simpl in *; [done|].
  unfold token_key, metadata_key. simpl.
  rewrite parseTokenKey_token_key by done. simpl.
  rewrite (parseTokenKey_metadata_key a s) by done.
  rewrite filter_cons. simpl. destruct (String.eqb s svc) eqn:E.
  - apply String.eqb_eq in E. rewrite decide_True by done. simpl. by f_equal.
  - apply String.eqb_neq in E. by rewrite decide_False by done.
Qed.

Lemma listAccountIds_token_keys_witness :
  listAccountIds
    (Some (Ok (Some (stream_of_keys
       (flat_map (λ p, [token_key p; metadata_key p])
          [{| accountId := "alice@gmail.com"; service := "gmail" |};
           {| accountId := "alice@gmail.com"; service := "sheets" |};
           {| accountId := "bob@gmail.com"; service := "gmail" |}]))))) "gmail"
  = Ok ["alice@gmail.com"; "bob@gmail.com"].
Proof.
  apply (listAccountIds_token_keys "gmail"
           [{| accountId := "alice@gmail.com"; service := "gmail" |};
            {| accountId := "alice@gmail.com"; service := "sheets" |};
            {| accountId := "bob@gmail.com"; service := "gmail" |}]).
  repeat constructor; simpl; discriminate.
Defined.

(* ===================================================================== *)
(** ** Tokens and metadata: round trips and isolation *)
(* ===================================================================== *)

Lemma account_key_inj t t' a s a' s' :
  includes_colon a = false → includes_colon s = false →
  includes_colon a' = false → includes_colon s' = false →
  a +:+ ":" +:+ s +:+ ":" +:+ account_key_type_name t
  = a' +:+ ":" +:+ s' +:+ ":" +:+ account_key_type_name t' →
  a = a' ∧ s = s' ∧ t = t'.
Proof.
  intros Ha Hs Ha' Hs' E. apply (f_equal split_colon) in E.
  rewrite !split_colon_account_key in E by done.
  injection E as -> -> E. by apply account_key_type_name_inj in E.
Qed.

Lemma getToken_run p st :
  getToken p st
  = (match createAccountKey Token p with
     | Ok k => Ok (as_token (st !! k))
     | Throw msg => Throw msg
     end, st).
Proof. unfold getToken. run_monad. by destruct (createAccountKey Token p). Qed.

Lemma getAccountInfo_run p st :
  getAccountInfo p st
  = (match createAccountKey Metadata p with
     | Ok k => Ok (as_info (st !! k))
     | Throw msg => Throw msg
     end, st).
Proof. unfold getAccountInfo. run_monad. by destruct (createAccountKey Metadata p). Qed.

Lemma getLinkedAccounts_run p st :
  getLinkedAccounts p st
  = (match createServiceKey Linked p with
     | Ok k => Ok (match as_array (st !! k) with Some l => l | None => [] end)
     | Throw msg => Throw msg
     end, st).
Proof. unfold getLinkedAccounts. run_monad. by destruct (createServiceKey Linked p). Qed.

Lemma getActiveAccount_run p st :
  getActiveAccount p st
  = (match createServiceKey Active p with
     | Ok k => Ok (as_string (st !! k))
     | Throw msg => Throw msg
     end, st).
Proof. unfold getActiveAccount. run_monad. by destruct (createServiceKey Active p). Qed.

(** Two stores that hold the same record under every key but one give the
    same reads wherever the key read is another one. *)
Lemma getToken_agree p st st' k0 :
  (∀ k, k ≠ k0 → st' !! k = st !! k) →
  createAccountKey Token p ≠ Ok k0 →
  fst (getToken p st') = fst (getToken p st).
Proof.
  intros Hag Hk. rewrite !getToken_run. simpl.
  destruct (createAccountKey Token p) as [k|] eqn:E; [|done].
  rewrite Hag; [done|]. intros ->. done.
Qed.

Lemma getAccountInfo_agree p st st' k0 :
  (∀ k, k ≠ k0 → st' !! k = st !! k) →
  createAccountKey Metadata p ≠ Ok k0 →
  fst (getAccountInfo p st') = fst (getAccountInfo p st).
Proof.
  intros Hag Hk. rewrite !getAccountInfo_run. simpl.
  destruct (createAccountKey Metadata p) as [k|] eqn:E; [|done].
  rewrite Hag; [done|]. intros ->. done.
Qed.

Lemma getLinkedAccounts_agree p st st' k0 :
  (∀ k, k ≠ k0 → st' !! k = st !! k) →
  createServiceKey Linked p ≠ Ok k0 →
  fst (getLinkedAccounts p st') = fst (getLinkedAccounts p st).
Proof.
  intros Hag Hk. rewrite !getLinkedAccounts_run. simpl.
  destruct (createServiceKey Linked p) as [k|] eqn:E; [|done].
  rewrite Hag; [done|]. intros ->. done.
Qed.

Lemma getActiveAccount_agree p st st' k0 :
  (∀ k, k ≠ k0 → st' !! k = st !! k) →
  createServiceKey Active p ≠ Ok k0 →
  fst (getActiveAccount p st') = fst (getActiveAccount p st).
Proof.
  intros Hag Hk. rewrite !getActiveAccount_run. simpl.
  destruct (createServiceKey Active p) as [k|] eqn:E; [|done].
  rewrite Hag; [done|]. intros ->. done.
Qed.

Lemma createAccountKey_neq t t' p p' k :
  createAccountKey t p = Ok k → (t', p') ≠ (t, p) → createAccountKey t' p' ≠ Ok k.
Proof.
  intros (Ha & Hs & ->)%createAccountKey_Ok Hne (Ha' & Hs' & E)%createAccountKey_Ok.
  apply account_key_inj in E as (E1 & E2 & E3); try done.
  destruct p, p'; simpl in *. by subst.
Qed.

Lemma createServiceKey_not_account_key ts ps t p k :
  createAccountKey t p = Ok k → createServiceKey ts ps ≠ Ok k.
Proof.
  intros (_ & _ & ->)%createAccountKey_Ok. destruct ps as [s].
  unfold createServiceKey. rewrite validateKeyParams_service.
  destruct (includes_colon s); [done|]. intros [= E].
  symmetry in E. by apply account_key_not_service_key in E.
Qed.

(** X6. A token that [setToken] stores is the one [getToken] returns for
    the same account and service, and the call changes no other read: the
    tokens of every other account or service, all metadata, and the linked
    and active accounts of every service are as before. *)
Theorem setToken_getToken (p : AccountKeyParams) (token : string) (st : store) :
  valid_params p →
  ∃ st', setToken p token st = (Ok tt, st') ∧
    returns (getToken p) st' (Some token) ∧
    (∀ p', p' ≠ p → fst (getToken p' st') = fst (getToken p' st)) ∧
    (∀ p', fst (getAccountInfo p' st') = fst (getAccountInfo p' st)) ∧
    (∀ s, fst (getLinkedAccounts s st') = fst (getLinkedAccounts s st) ∧
          fst (getActiveAccount s st') = fst (getActiveAccount s st)).
Proof.
  destruct p as [a s]. intros [Ha Hs]. simpl in *.
  pose proof (createAccountKey_valid Token a s Ha Hs) as Hk.
  exists (<[a +:+ ":" +:+ s +:+ ":token" := VToken token]> st).
  assert (Hag : ∀ k, k ≠ a +:+ ":" +:+ s +:+ ":token" →
                     <[a +:+ ":" +:+ s +:+ ":token" := VToken token]> st !! k = st !! k).
  { intros k Hne. by rewrite lookup_insert_ne. }
  split; [unfold setToken; run_monad; by rewrite Hk|].
  split; [unfold returns; rewrite getToken_run, Hk; simpl; by rewrite lookup_insert_eq|].
  split; [|split; [|split]].
  - intros p' Hne. apply (getToken_agree _ _ _ _ Hag).
    apply (createAccountKey_neq _ _ _ _ _ Hk). congruence.
  - intros p'. apply (getAccountInfo_agree _ _ _ _ Hag).
    apply (createAccountKey_neq _ _ _ _ _ Hk). congruence.
  - apply (getLinkedAccounts_agree _ _ _ _ Hag).
    apply (createServiceKey_not_account_key _ _ _ _ _ Hk).
  - apply (getActiveAccount_agree _ _ _ _ Hag).
    apply (createServiceKey_not_account_key _ _ _ _ _ Hk).
Qed.

Lemma setToken_getToken_witness :
  ∃ st', setToken {| accountId := "user1@gmail.com"; service := "gmail" |} "token1" ∅ = (Ok tt, st') ∧
    returns (getToken {| accountId := "user1@gmail.com"; service := "gmail" |}) st' (Some "token1") ∧
    returns (getToken {| accountId := "user1@gmail.com"; service := "sheets" |}) st' None.
Proof.
  destruct (setToken_getToken {| accountId := "user1@gmail.com"; service := "gmail" |} "token1" ∅)
    as (st' & Hrun & Hget & Hother & _); [split; reflexivity|].
  exists st'. split; [done|]. split; [done|].
  unfold returns. rewrite Hother; [reflexivity | discriminate].
Defined.

(** X7. The same for metadata: [getAccountInfo] returns what
    [setAccountInfo] stored, whole, and the call changes no other read. *)
Theorem setAccountInfo_getAccountInfo (p : AccountKeyParams) (info : AccountInfo) (st : store) :
  valid_params p →
  ∃ st', setAccountInfo p info st = (Ok tt, st') ∧
    returns (getAccountInfo p) st' (Some info) ∧
    (∀ p', p' ≠ p → fst (getAccountInfo p' st') = fst (getAccountInfo p' st)) ∧
    (∀ p', fst (getToken p' st') = fst (getToken p' st)) ∧
    (∀ s, fst (getLinkedAccounts s st') = fst (getLinkedAccounts s st) ∧
          fst (getActiveAccount s st') = fst (getActiveAccount s st)).
Proof.
  destruct p as [a s]. intros [Ha Hs]. simpl in *.
  pose proof (createAccountKey_valid Metadata a s Ha Hs) as Hk.
  exists (<[a +:+ ":" +:+ s +:+ ":metadata" := VInfo info]> st).
  assert (Hag : ∀ k, k ≠ a +:+ ":" +:+ s +:+ ":metadata" →
                     <[a +:+ ":" +:+ s +:+ ":metadata" := VInfo info]> st !! k = st !! k).
  { intros k Hne. by rewrite lookup_insert_ne. }
  split; [unfold setAccountInfo; run_monad; by rewrite Hk|].
  split; [unfold returns; rewrite getAccountInfo_run, Hk; simpl; by rewrite lookup_insert_eq|].
  split; [|split; [|split]].
  - intros p' Hne. apply (getAccountInfo_agree _ _ _ _ Hag).
    apply (createAccountKey_neq _ _ _ _ _ Hk). congruence.
  - intros p'. apply (getToken_agree _ _ _ _ Hag).
    apply (createAccountKey_neq _ _ _ _ _ Hk). congruence.
  - apply (getLinkedAccounts_agree _ _ _ _ Hag).
    apply (createServiceKey_not_account_key _ _ _ _ _ Hk).
  - apply (getActiveAccount_agree _ _ _ _ Hag).
    apply (createServiceKey_not_account_key _ _ _ _ _ Hk).
Qed.

Lemma setAccountInfo_getAccountInfo_witness :
  ∃ st', setAccountInfo {| accountId := "user@gmail.com"; service := "gmail" |}
           {| email := "user@gmail.com"; alias := Some "work";
              addedAt := "2024-01-01T00:00:00.000Z"; lastUsed := None; metadata := None |} ∅
         = (Ok tt, st') ∧
    returns (getAccountInfo {| accountId := "user@gmail.com"; service := "gmail" |}) st'
      (Some {| email := "user@gmail.com"; alias := Some "work";
               addedAt := "2024-01-01T00:00:00.000Z"; lastUsed := None; metadata := None |}).
Proof.
  destruct (setAccountInfo_getAccountInfo {| accountId := "user@gmail.com"; service := "gmail" |}
              {| email := "user@gmail.com"; alias := Some "work";
                 addedAt := "2024-01-01T00:00:00.000Z"; lastUsed := None; metadata := None |} ∅)
    as (st' & Hrun & Hget & _); [split; reflexivity|].
  exists st'. by split.
Defined.

Lemma removeAccount_lookup a s st k :
  includes_colon a = false → includes_colon s = false →
  k ≠ s +:+ ":linked" → k ≠ s +:+ ":active" →
  snd (removeAccount {| accountId := a; service := s |} st) !! k
  = if decide (k = a +:+ ":" +:+ s +:+ ":token" ∨ k = a +:+ ":" +:+ s +:+ ":metadata")
    then None else st !! k.
Proof.
  intros Ha Hs Hl Hact. rewrite removeAccount_valid by done. simpl.
  assert (E : <[s +:+ ":linked" := VArray (filter (λ id, id ≠ a) (linked_of st s))]>
                (delete (a +:+ ":" +:+ s +:+ ":metadata")
                   (delete (a +:+ ":" +:+ s +:+ ":token") st)) !! k
              = if decide (k = a +:+ ":" +:+ s +:+ ":token" ∨ k = a +:+ ":" +:+ s +:+ ":metadata")
                then None else st !! k).
  { rewrite lookup_insert_ne by done. case_decide as Hk.
    - destruct Hk as [->| ->]; [|by rewrite lookup_delete_eq].
      rewrite lookup_delete_ne; [by rewrite lookup_delete_eq|].
      intros E. by apply (account_key_inj Metadata Token) in E as (_ & _ & ?).
    - rewrite lookup_delete_ne by (intros E; symmetry in E; tauto).
      by rewrite lookup_delete_ne by (intros E; symmetry in E; tauto). }
  case_bool_decide; [|done].
  destruct (truthy_opt (head _)); [by rewrite lookup_insert_ne | by rewrite lookup_delete_ne].
Qed.

(** X8. [removeAccount] deletes the token and the metadata of the account
    for the service, and leaves the tokens and the metadata of every other
    account or service as they are. *)
Theorem removeAccount_records (p : AccountKeyParams) (st : store) :
  valid_params p →
  ∃ st', removeAccount p st = (Ok tt, st') ∧
    returns (getToken p) st' None ∧
    returns (getAccountInfo p) st' None ∧
    (∀ p', p' ≠ p →
       fst (getToken p' st') = fst (getToken p' st) ∧
       fst (getAccountInfo p' st') = fst (getAccountInfo p' st)).
Proof.
  destruct p as [a s]. intros [Ha Hs]. simpl in *.
  pose proof (λ k, removeAccount_lookup a s st k Ha Hs) as Hlook.
  destruct (removeAccount_spec a s st Ha Hs) as (st' & Hrun & _).
  rewrite Hrun in Hlook. simpl in Hlook. exists st'. split; [done|].
  assert (Hsvc : ∀ t a' s' ts,
            a' +:+ ":" +:+ s' +:+ ":" +:+ account_key_type_name t
            ≠ s +:+ ":" +:+ service_key_type_name ts).
  { intros. apply account_key_not_service_key. }
  split; [|split].
  - unfold returns. rewrite getToken_run, createAccountKey_valid by done. simpl.
    rewrite Hlook by first [apply (Hsvc Token _ _ Linked) | apply (Hsvc Token _ _ Active)].
    by rewrite decide_True by (by left).
  - unfold returns. rewrite getAccountInfo_run, createAccountKey_valid by done. simpl.
    rewrite Hlook by first [apply (Hsvc Metadata _ _ Linked) | apply (Hsvc Metadata _ _ Active)].
    by rewrite decide_True by (by right).
  - intros [a' s'] Hne. rewrite !getToken_run, !getAccountInfo_run. simpl.
    unfold createAccountKey, account_entries. simpl.
    destruct (includes_colon a') eqn:Ha'; [done|].
    destruct (includes_colon s') eqn:Hs'; [done|]. simpl.
    rewrite !Hlook
      by first [apply (Hsvc Token _ _ Linked) | apply (Hsvc Token _ _ Active)
               |apply (Hsvc Metadata _ _ Linked) | apply (Hsvc Metadata _ _ Active)].
    rewrite !decide_False; [done| |].
    + intros [E|E]; [apply (account_key_inj Metadata Token) in E as (_ & _ & ?)
                    |apply (account_key_inj Metadata Metadata) in E as (-> & -> & _)]; done.
    + intros [E|E]; [apply (account_key_inj Token Token) in E as (-> & -> & _)
                    |apply (account_key_inj Token Metadata) in E as (_ & _ & ?)]; done.
Qed.

Lemma removeAccount_records_witness :
  ∃ st', removeAccount {| accountId := "user@gmail.com"; service := "gmail" |}
           (snd (setToken {| accountId := "user@gmail.com"; service := "gmail" |} "token123" ∅))
         = (Ok tt, st') ∧
    returns (getToken {| accountId := "user@gmail.com"; service := "gmail" |}) st' None.
Proof.
  destruct (removeAccount_records {| accountId := "user@gmail.com"; service := "gmail" |}
              (snd (setToken {| accountId := "user@gmail.com"; service := "gmail" |} "token123" ∅)))
    as (st' & Hrun & Hget & _); [split; reflexivity|].
  exists st'. by split.
Defined.

(* ===================================================================== *)
(** ** More on the directory calls *)
(* ===================================================================== *)

(** X9. [removeAccount] of an account that is not the active one leaves the
    active account as it is; the account is no longer linked afterwards, and
    the other linked accounts keep their order. *)
Theorem removeAccount_not_active (a s : string) (st : store) (o : option string) :
  includes_colon a = false →
  returns (getActiveAccount {| svc_service := s |}) st o → o ≠ Some a →
  ∃ st', removeAccount {| accountId := a; service := s |} st = (Ok tt, st') ∧
    returns (getActiveAccount {| svc_service := s |}) st' o ∧
    returns (getLinkedAccounts {| svc_service := s |}) st'
      (filter (λ id, id ≠ a) (linked_of st s)) ∧
    a ∉ linked_of st' s.
Proof.
  intros Ha [Hs <-]%returns_getActiveAccount Hne.
  destruct (removeAccount_spec a s st Ha Hs) as (st' & Hrun & Hl & Hp).
  specialize (Hl s). specialize (Hp s).
  rewrite decide_True in Hl by done. rewrite decide_True in Hp by done.
  rewrite bool_decide_eq_false_2 in Hp by done.
  exists st'. split; [done|]. split; [by apply returns_getActiveAccount|].
  split; [by apply returns_getLinkedAccounts|].
  rewrite Hl. intros [? _]%list_elem_of_filter. done.
Qed.

Lemma removeAccount_not_active_witness :
  ∃ st', removeAccount {| accountId := "user2@gmail.com"; service := "gmail" |}
           (run_ops [OpAdd {| accountId := "user1@gmail.com"; service := "gmail" |};
                     OpAdd {| accountId := "user2@gmail.com"; service := "gmail" |}] ∅)
         = (Ok tt, st') ∧
    returns (getActiveAccount {| svc_service := "gmail" |}) st' (Some "user1@gmail.com").
Proof.
  destruct (removeAccount_not_active "user2@gmail.com" "gmail"
              (run_ops [OpAdd {| accountId := "user1@gmail.com"; service := "gmail" |};
                        OpAdd {| accountId := "user2@gmail.com"; service := "gmail" |}] ∅)
              (Some "user1@gmail.com"))
    as (st' & Hrun & Hact & _); [reflexivity | reflexivity | discriminate |].
  exists st'. by split.
Defined.

(** X10. [addAccount] does not validate the account identifier: an
    identifier that contains a colon is linked, and [removeAccount], which
    does validate it, then throws and leaves the store as it is, so the
    account stays linked. *)
Theorem addAccount_colon_account (a s : string) (st : store) :
  includes_colon a = true → includes_colon s = false →
  ∃ st1 msg,
    addAccount {| accountId := a; service := s |} st = (Ok tt, st1) ∧
    a ∈ linked_of st1 s ∧
    removeAccount {| accountId := a; service := s |} st1 = (Throw msg, st1).
Proof.
  intros Ha Hs.
  destruct (addAccount_spec a s st Hs) as (st1 & Hrun & Hl & _).
  destruct (removeAccount_invalid a s st1) as [msg Hrm]; [by left|].
  exists st1, msg. split; [done|]. split; [|done].
  rewrite Hl, decide_True by done. case_bool_decide; [done|].
  apply elem_of_app. right. apply list_elem_of_here.
Qed.

Lemma addAccount_colon_account_witness :
  ∃ st1 msg,
    addAccount {| accountId := "urn:42"; service := "gmail" |} ∅ = (Ok tt, st1) ∧
    "urn:42" ∈ linked_of st1 "gmail" ∧
    removeAccount {| accountId := "urn:42"; service := "gmail" |} st1 = (Throw msg, st1).
Proof. apply (addAccount_colon_account "urn:42" "gmail" ∅); reflexivity. Defined.

(** X11. [getActiveAccount] returns what [setActiveAccount] wrote for the
    service, nothing after a deactivation, and the linked accounts of the
    service are not touched. *)
Theorem setActiveAccount_getActiveAccount (s : string) (o : option string) (st : store) :
  includes_colon s = false →
  ∃ st', setActiveAccount s o st = (Ok tt, st') ∧
    returns (getActiveAccount {| svc_service := s |}) st' o ∧
    returns (getLinkedAccounts {| svc_service := s |}) st' (linked_of st s).
Proof.
  intros Hs. rewrite setActiveAccount_valid by done. eexists. split; [done|].
  split; [apply returns_getActiveAccount | apply returns_getLinkedAccounts];
    (split; [done|]); destruct o.
  - rewrite active_of_insert_active. by rewrite decide_True.
  - rewrite active_of_delete_active. by rewrite decide_True.
  - apply linked_of_insert_active.
  - apply linked_of_delete_active.
Qed.

Lemma setActiveAccount_getActiveAccount_witness :
  ∃ st', setActiveAccount "gmail" (Some "user2@gmail.com")
           (snd (setActiveAccount "gmail" (Some "user1@gmail.com") ∅)) = (Ok tt, st') ∧
    returns (getActiveAccount {| svc_service := "gmail" |}) st' (Some "user2@gmail.com") ∧
    returns (getLinkedAccounts {| svc_service := "gmail" |}) st' [].
Proof. apply (setActiveAccount_getActiveAccount "gmail"); reflexivity. Defined.

(** X12. Services are isolated: a directory call for one service, whether
    it returns or throws, changes neither the linked accounts nor the active
    account that are read for any other service. *)
Theorem run_op_other_service (op : dir_op) (st : store) (s' : string) :
  s' ≠ op_service op →
  fst (getLinkedAccounts {| svc_service := s' |} (snd (run_op op st)))
  = fst (getLinkedAccounts {| svc_service := s' |} st) ∧
  fst (getActiveAccount {| svc_service := s' |} (snd (run_op op st)))
  = fst (getActiveAccount {| svc_service := s' |} st).
Proof.
  intros Hne.
  assert (H : linked_of (snd (run_op op st)) s' = linked_of st s' ∧
              active_of (snd (run_op op st)) s' = active_of st s').
  { destruct op as [[a s]|[a s]|s o]; simpl in *.
    - destruct (includes_colon s) eqn:Hs; [by rewrite addAccount_invalid|].
      destruct (addAccount_spec a s st Hs) as (st' & -> & Hl & Hp). simpl.
      rewrite Hl, Hp. by rewrite !decide_False.
    - destruct (includes_colon a) eqn:Ha.
      { destruct (removeAccount_invalid a s st) as [msg ->]; [by left|]. done. }
      destruct (includes_colon s) eqn:Hs.
      { destruct (removeAccount_invalid a s st) as [msg ->]; [by right|]. done. }
      destruct (removeAccount_spec a s st Ha Hs) as (st' & -> & Hl & Hp). simpl.
      rewrite Hl, Hp. by rewrite !decide_False.
    - destruct (includes_colon s) eqn:Hs; [by rewrite setActiveAccount_invalid|].
      rewrite setActiveAccount_valid by done. simpl. destruct o.
      + rewrite linked_of_insert_active, active_of_insert_active. by rewrite decide_False.
      + rewrite linked_of_delete_active, active_of_delete_active. by rewrite decide_False. }
  destruct H as [Hl Hp].
  destruct (includes_colon s') eqn:Hs'.
  - by rewrite !getLinkedAccounts_invalid, !getActiveAccount_invalid.
  - rewrite !getLinkedAccounts_valid, !getActiveAccount_valid by done. simpl.
    by rewrite Hl, Hp.
Qed.

Lemma run_op_other_service_witness :
  fst (getLinkedAccounts {| svc_service := "sheets" |}
         (snd (run_op (OpRemove {| accountId := "a@x.com"; service := "gmail" |}) ∅)))
  = fst (getLinkedAccounts {| svc_service := "sheets" |} ∅) ∧
  fst (getActiveAccount {| svc_service := "sheets" |}
         (snd (run_op (OpRemove {| accountId := "a@x.com"; service := "gmail" |}) ∅)))
  = fst (getActiveAccount {| svc_service := "sheets" |} ∅).
Proof.
  apply (run_op_other_service (OpRemove {| accountId := "a@x.com"; service := "gmail" |}) ∅ "sheets").
  discriminate.
Defined.

Lemma filter_ne_not_elem (l : list string) (a : string) :
  a ∉ l → filter (λ id, id ≠ a) l = l.
Proof.
  induction l as [|y l IH]; [done|]. intros Hnin.
  apply not_elem_of_cons in Hnin as [Hne Hnin].
  rewrite filter_cons_True by done. by rewrite IH.
Qed.

(** X13. Adding an account that is not linked and removing it again gives
    back the linked accounts and, when a non-empty active account other than
    it was set, the active account. *)
Theorem addAccount_removeAccount (a s x : string) (st : store) :
  includes_colon a = false →
  returns (getActiveAccount {| svc_service := s |}) st (Some x) →
  x ≠ "" → x ≠ a → a ∉ linked_of st s →
  ∃ st1 st2,
    addAccount {| accountId := a; service := s |} st = (Ok tt, st1) ∧
    removeAccount {| accountId := a; service := s |} st1 = (Ok tt, st2) ∧
    returns (getLinkedAccounts {| svc_service := s |}) st2 (linked_of st s) ∧
    returns (getActiveAccount {| svc_service := s |}) st2 (Some x).
Proof.
  intros Ha [Hs Hx]%returns_getActiveAccount Hne Hxa Hnin.
  destruct (addAccount_spec a s st Hs) as (st1 & Hrun1 & Hl1 & Hp1).
  destruct (removeAccount_spec a s st1 Ha Hs) as (st2 & Hrun2 & Hl2 & Hp2).
  specialize (Hl1 s). specialize (Hp1 s). specialize (Hl2 s). specialize (Hp2 s).
  rewrite decide_True in Hl1 by done. rewrite decide_True in Hp1 by done.
  rewrite decide_True in Hl2 by done. rewrite decide_True in Hp2 by done.
  rewrite bool_decide_eq_false_2 in Hl1 by done.
  rewrite Hx in Hp1. simpl in Hp1.
  apply truthy_true in Hne. rewrite Hne in Hp1.
  rewrite Hp1, bool_decide_eq_false_2 in Hp2 by congruence.
  exists st1, st2. split; [done|]. split; [done|].
  split; [apply returns_getLinkedAccounts | by apply returns_getActiveAccount].
  split; [done|]. rewrite Hl2, Hl1, filter_app, filter_cons_False, filter_nil, app_nil_r by tauto.
  by apply filter_ne_not_elem.
Qed.

Lemma addAccount_removeAccount_witness :
  ∃ st1 st2,
    addAccount {| accountId := "b@x.com"; service := "gmail" |}
      (run_ops [OpAdd {| accountId := "a@x.com"; service := "gmail" |}] ∅) = (Ok tt, st1) ∧
    removeAccount {| accountId := "b@x.com"; service := "gmail" |} st1 = (Ok tt, st2) ∧
    returns (getLinkedAccounts {| svc_service := "gmail" |}) st2 ["a@x.com"] ∧
    returns (getActiveAccount {| svc_service := "gmail" |}) st2 (Some "a@x.com").
Proof.
  destruct (addAccount_removeAccount "b@x.com" "gmail" "a@x.com"
              (run_ops [OpAdd {| accountId := "a@x.com"; service := "gmail" |}] ∅))
    as (st1 & st2 & H1 & H2 & H3 & H4);
    [reflexivity | reflexivity | discriminate | discriminate | |].
  - vm_compute. intros H. apply list_elem_of_singleton in H. discriminate.
  - exists st1, st2. repeat split; done.
Defined.

(* ===================================================================== *)
(** ** Lookup by email or alias, in full *)
(* ===================================================================== *)

Lemma search_by_alias_head svc reference ids st :
  includes_colon svc = false →
  Forall (λ id, includes_colon id = false) ids →
  search_by_alias svc reference ids st
  = (Ok (head (filter (λ id, alias_of st svc id = Some reference) ids)), st).
Proof.
  intros Hs Hids. induction Hids as [|id ids Hid _ IH]; simpl; [done|].
  unfold bind. rewrite getAccountInfo_valid by done. fold (alias_of st svc id).
  case_bool_decide as E.
  - by rewrite filter_cons_True.
  - by rewrite filter_cons_False.
Qed.

(** X14. When the linked identifiers are valid key parameters,
    [findAccountByEmailOrAlias] returns the reference itself when it is a
    linked identifier, whatever aliases are set, and otherwise the first
    linked account, in list order, whose alias is the reference; it returns
    [null] when there is none. The store is left as it is. *)
Theorem findAccountByEmailOrAlias_first_match (svc reference : string) (st : store) :
  includes_colon svc = false →
  Forall (λ id, includes_colon id = false) (linked_of st svc) →
  findAccountByEmailOrAlias svc reference st
  = (Ok (if bool_decide (reference ∈ linked_of st svc) then Some reference
         else head (filter (λ id, alias_of st svc id = Some reference) (linked_of st svc))),
     st).
Proof.
  intros Hs Hids. unfold findAccountByEmailOrAlias, bind.
  rewrite getLinkedAccounts_valid by done.
  case_bool_decide; [done|]. by apply search_by_alias_head.
Qed.

Lemma findAccountByEmailOrAlias_first_match_witness :
  findAccountByEmailOrAlias "gmail" "work"
    (store_with_alias ["user1@gmail.com"; "user2@gmail.com"] "user2@gmail.com")
  = (Ok (Some "user2@gmail.com"),
     store_with_alias ["user1@gmail.com"; "user2@gmail.com"] "user2@gmail.com").
Proof.
  refine (eq_trans (findAccountByEmailOrAlias_first_match "gmail" "work" _ _ _) _).
  - reflexivity.
  - vm_compute. repeat constructor.
  - vm_compute. reflexivity.
Defined.

(** X15. In every store, [findAccountByEmailOrAlias] writes nothing,
    whether it returns or throws, and an account it returns is one of the
    linked accounts of the service. *)
Theorem findAccountByEmailOrAlias_reads_only (svc reference : string) (st : store) :
  snd (findAccountByEmailOrAlias svc reference st) = st ∧
  ∀ acct, returns (findAccountByEmailOrAlias svc reference) st (Some acct) →
          acct ∈ linked_of st svc.
Proof.
  split; [apply findAccountByEmailOrAlias_pure|].
  intros acct. apply findAccountByEmailOrAlias_linked.
Qed.

(* ===================================================================== *)
(** ** account-list *)
(* ===================================================================== *)

Lemma list_rows_valid svc active ids st :
  includes_colon svc = false →
  Forall (λ id, includes_colon id = false) ids →
  list_rows svc active ids st
  = (Ok (map (λ id, {| la_email := id; la_alias := alias_of st svc id;
                       isActive := bool_decide (active = Some id) |}) ids), st).
Proof.
  intros Hs Hids. induction Hids as [|id ids Hid _ IH]; simpl; [done|].
  unfold bind. rewrite getAccountInfo_valid by done. by rewrite IH.
Qed.

Lemma list_rows_pure svc active ids st : snd (list_rows svc active ids st) = st.
Proof.
  induction ids as [|id ids IH]; simpl; [done|]. unfold bind.
  pose proof (getAccountInfo_pure {| accountId := id; service := svc |} st) as E.
  destruct (getAccountInfo _ st) as [[info|msg] st']; simpl in E; subst st'; [|done].
  destruct (list_rows svc active ids st) as [[rows|msg] st'']; simpl in IH; by subst.
Qed.

Lemma account_list_pure svc st : snd (account_list svc st) = st.
Proof.
  unfold account_list, try_catch, account_list_try, bind.
  destruct (includes_colon svc) eqn:Hs.
  { by rewrite getLinkedAccounts_invalid. }
  rewrite getLinkedAccounts_valid by done.
  destruct (Nat.eqb (length (linked_of st svc)) 0); [done|].
  rewrite getActiveAccount_valid by done.
  pose proof (list_rows_pure svc (active_of st svc) (linked_of st svc) st) as E.
  destruct (list_rows svc (active_of st svc) (linked_of st svc) st) as [[rows|msg] st'];
    simpl in E; by subst.
Qed.

Lemma account_list_valid svc st :
  includes_colon svc = false →
  Forall (λ id, includes_colon id = false) (linked_of st svc) →
  ∃ r, account_list svc st = (Ok r, st) ∧
       accounts r = map (row_of st svc) (linked_of st svc) ∧
       ls_totalAccounts r = length (accounts r).
Proof.
  intros Hs Hids. unfold account_list, try_catch, account_list_try, bind.
  rewrite getLinkedAccounts_valid by done.
  destruct (Nat.eqb (length (linked_of st svc)) 0) eqn:El.
  { apply Nat.eqb_eq, nil_length_inv in El. rewrite El. by eexists. }
  rewrite getActiveAccount_valid by done.
  rewrite list_rows_valid by done.
  eexists. split; [reflexivity|]. simpl. by rewrite length_map.
Qed.

(** X16. [account-list] never writes to the store. When the linked
    identifiers are valid key parameters it returns one row for each linked
    account, in list order, with the alias of its metadata and the flag that
    tells whether it is the active account, and the number of rows as
    [totalAccounts]. *)
Theorem account_list_rows (svc : string) (st : store) :
  snd (account_list svc st) = st ∧
  (includes_colon svc = false →
   Forall (λ id, includes_colon id = false) (linked_of st svc) →
   ∃ r, account_list svc st = (Ok r, st) ∧
        accounts r = map (row_of st svc) (linked_of st svc) ∧
        ls_totalAccounts r = length (accounts r)).
Proof. split; [apply account_list_pure | apply account_list_valid]. Qed.

Lemma account_list_rows_witness :
  ∃ r, account_list "gmail"
         (store_with_alias ["user1@gmail.com"; "user2@gmail.com"] "user2@gmail.com")
       = (Ok r, store_with_alias ["user1@gmail.com"; "user2@gmail.com"] "user2@gmail.com") ∧
       accounts r = [ {| la_email := "user1@gmail.com"; la_alias := None; isActive := true |};
                      {| la_email := "user2@gmail.com"; la_alias := Some "work"; isActive := false |} ] ∧
       ls_totalAccounts r = 2.
Proof.
  destruct (proj2 (account_list_rows "gmail"
              (store_with_alias ["user1@gmail.com"; "user2@gmail.com"] "user2@gmail.com")))
    as (r & Hrun & Hrows & Htotal);
    [reflexivity | vm_compute; repeat constructor |].
  exists r. split; [done|]. rewrite Htotal, Hrows. split; reflexivity.
Defined.

Lemma count_active_rows st svc a l :
  NoDup l → a ∈ l →
  filter (λ row, isActive row = true)
    (map (λ id, {| la_email := id; la_alias := alias_of st svc id;
                   isActive := bool_decide (Some a = Some id) |}) l)
  = [ {| la_email := a; la_alias := alias_of st svc a; isActive := true |} ].
Proof.
  induction l as [|x l IH]; intros Hnd Hin; [by apply elem_of_nil in Hin|].
  apply NoDup_cons in Hnd as [Hx Hnd]. simpl.
  destruct (decide (x = a)) as [->|Hne].
  - rewrite filter_cons_True by (simpl; by rewrite bool_decide_eq_true_2).
    rewrite bool_decide_eq_true_2 by done. f_equal.
    clear IH Hin Hnd. induction l as [|y l IH]; simpl; [done|].
    apply not_elem_of_cons in Hx as [Hay Hx].
    rewrite filter_cons_False; [by apply IH|].
    simpl. rewrite bool_decide_eq_false_2; [done | congruence].
  - rewrite filter_cons_False.
    + apply IH; [done|]. apply elem_of_cons in Hin as [->|]; done.
    + simpl. rewrite bool_decide_eq_false_2; [done | congruence].
Qed.

(** X17. In a directory whose linked identifiers are valid and free of
    duplicates and whose active account is linked, exactly one row of
    [account-list] is flagged as active, and it is the row of the active
    account. *)
Theorem account_list_one_active (svc a : string) (st : store) :
  Forall (λ id, includes_colon id = false) (linked_of st svc) →
  NoDup (linked_of st svc) →
  returns (getActiveAccount {| svc_service := svc |}) st (Some a) →
  a ∈ linked_of st svc →
  ∃ r, account_list svc st = (Ok r, st) ∧
       filter (λ row, isActive row = true) (accounts r) = [row_of st svc a] ∧
       isActive (row_of st svc a) = true.
Proof.
  intros Hids Hnd [Hs Ha]%returns_getActiveAccount Hin.
  destruct (account_list_valid svc st Hs Hids) as (r & Hrun & Hrows & _).
  exists r. split; [done|]. rewrite Hrows. unfold row_of. rewrite Ha.
  rewrite bool_decide_eq_true_2 by done. split; [|done].
  by apply count_active_rows.
Qed.

Lemma account_list_one_active_witness :
  ∃ r, account_list "gmail"
         (run_ops [OpAdd {| accountId := "user1@gmail.com"; service := "gmail" |};
                   OpAdd {| accountId := "user2@gmail.com"; service := "gmail" |}] ∅)
       = (Ok r, run_ops [OpAdd {| accountId := "user1@gmail.com"; service := "gmail" |};
                         OpAdd {| accountId := "user2@gmail.com"; service := "gmail" |}] ∅) ∧
       filter (λ row, isActive row = true) (accounts r)
       = [ {| la_email := "user1@gmail.com"; la_alias := None; isActive := true |} ].
Proof.
  destruct (account_list_one_active "gmail" "user1@gmail.com"
              (run_ops [OpAdd {| accountId := "user1@gmail.com"; service := "gmail" |};
                        OpAdd {| accountId := "user2@gmail.com"; service := "gmail" |}] ∅))
    as (r & Hrun & Hone & _).
  - vm_compute. repeat constructor.
  - apply run_ops_linked_NoDup.
  - reflexivity.
  - vm_compute. apply list_elem_of_here.
  - exists r. split; [done|]. rewrite Hone. reflexivity.
Defined.

(* ===================================================================== *)
(** ** account-remove, when the reference resolves *)
(* ===================================================================== *)



(* ===================================================================== *)
(** ** account-switch: the new-account path, failures and calls *)
(* ===================================================================== *)

(** X19. On the path to the interactive flow, when the flow leaves as
    active account a non-empty, valid account that was not linked before the
    call, [account-switch] returns it with [isNew = true] and one more than
    the former number of linked accounts; afterwards the account is linked
    and active, its metadata are the fresh ones, and the flow has been
    called once. *)
Theorem account_switch_new_account
    (svc : string) (getAccessToken : string -> M store string) (uuid now : string)
    (params : SwitchParams) (w : world) (tok : string) (st' : store) (e : string) :
  takes_oauth_path svc params (kv w) →
  getAccessToken ("new:" +:+ uuid) (kv w) = (Ok tok, st') →
  returns (getActiveAccount {| svc_service := svc |}) st' (Some e) →
  e ≠ "" → includes_colon e = false →
  e ∉ linked_of (kv w) svc →
  ∃ r w',
    account_switch svc getAccessToken uuid now params w = (Ok r, w') ∧
    res_email r = e ∧ isNew r = true ∧
    totalAccounts r = length (linked_of (kv w) svc) + 1 ∧
    e ∈ linked_of (kv w') svc ∧
    returns (getActiveAccount {| svc_service := svc |}) (kv w') (Some e) ∧
    returns (getAccountInfo {| accountId := e; service := svc |}) (kv w')
      (Some {| email := e; alias := truthy_opt (arg_alias params); addedAt := now;
               lastUsed := None; metadata := None |}) ∧
    auth_calls w' = ("new:" +:+ uuid) :: auth_calls w.
Proof.
  intros Hpath Hauth Ho Hne He Hnin.
  pose proof (proj1 (returns_getActiveAccount _ _ _) Ho) as [Hs Hact].
  unfold account_switch, try_catch.
  rewrite account_switch_try_oauth by done.
  unfold switch_oauth, bind at 1, call_getAccessToken. rewrite Hauth.
  unfold bind at 1, lift_store at 1. simpl. rewrite getActiveAccount_valid by done.
  rewrite Hact. simpl. pose proof (proj2 (truthy_true e) Hne) as Ht. rewrite Ht.
  rewrite bool_decide_eq_false_2 by done. simpl.
  destruct (addAccount_spec e svc st' Hs) as (st_a & Hadd & Hl & _).
  specialize (Hl svc). rewrite decide_True in Hl by done.
  unfold bind, lift_store, ret. simpl. rewrite Hadd. simpl.
  rewrite getAccountInfo_valid by done.
  rewrite setAccountInfo_valid by done.
  rewrite setActiveAccount_valid by done.
  eexists _, _. split; [reflexivity|]. simpl. repeat split.
  - rewrite linked_of_insert_active, (linked_of_insert_account Metadata), Hl.
    case_bool_decide; [done|]. apply elem_of_app. right. apply list_elem_of_here.
  - apply returns_getActiveAccount. split; [done|].
    rewrite active_of_insert_active. by rewrite decide_True.
  - unfold returns. rewrite getAccountInfo_valid by done. simpl.
    rewrite lookup_insert_ne; [by rewrite lookup_insert_eq|].
    intros H. symmetry in H.
    by apply (account_key_not_service_key Metadata e svc Active) in H.
Qed.

Lemma account_switch_new_account_witness :
  ∃ r w',
    account_switch "gmail"
      (fun _ st => (Ok "access-token", <["gmail:active" := VString "user2@gmail.com"]> st))
      "1b4e28ba" "2024-02-02T00:00:00.000Z"
      {| arg_email := Some "user2@gmail.com"; arg_alias := None |}
      {| kv := run_ops [OpAdd {| accountId := "user1@gmail.com"; service := "gmail" |}] ∅;
         auth_calls := [] |} = (Ok r, w') ∧
    res_email r = "user2@gmail.com" ∧ isNew r = true ∧ totalAccounts r = 2 ∧
    linked_of (kv w') "gmail" = ["user1@gmail.com"; "user2@gmail.com"] ∧
    auth_calls w' = ["new:1b4e28ba"].
Proof.
  destruct (account_switch_new_account "gmail"
              (fun _ st => (Ok "access-token", <["gmail:active" := VString "user2@gmail.com"]> st))
              "1b4e28ba" "2024-02-02T00:00:00.000Z"
              {| arg_email := Some "user2@gmail.com"; arg_alias := None |}
              {| kv := run_ops [OpAdd {| accountId := "user1@gmail.com"; service := "gmail" |}] ∅;
                 auth_calls := [] |}
              "access-token"
              (<["gmail:active" := VString "user2@gmail.com"]>
                 (run_ops [OpAdd {| accountId := "user1@gmail.com"; service := "gmail" |}] ∅))
              "user2@gmail.com")
    as (r & w' & Hrun & Hr1 & Hr2 & Hr3 & _ & _ & _ & Hcalls).
  - exists None. split; reflexivity.
  - reflexivity.
  - reflexivity.
  - discriminate.
  - reflexivity.
  - vm_compute. intros H. apply list_elem_of_singleton in H. discriminate.
  - exists r, w'. split; [done|]. split; [done|]. split; [done|]. split; [done|].
    split; [|done]. vm_compute in Hrun. injection Hrun as _ <-. reflexivity.
Defined.

(** X20. A failure of the interactive flow is the failure of
    [account-switch]: the message of the flow is wrapped, and the handler
    writes nothing after it, so the store is the one the flow left. *)
Theorem account_switch_flow_throws
    (svc : string) (getAccessToken : string -> M store string) (uuid now : string)
    (params : SwitchParams) (w : world) (msg : string) (st' : store) :
  includes_colon svc = false →
  takes_oauth_path svc params (kv w) →
  getAccessToken ("new:" +:+ uuid) (kv w) = (Throw msg, st') →
  account_switch svc getAccessToken uuid now params w
  = (Throw ("Error switching " +:+ svc +:+ " account: " +:+ msg),
     {| kv := st'; auth_calls := ("new:" +:+ uuid) :: auth_calls w |}).
Proof.
  intros Hs Hpath Hauth. unfold account_switch, try_catch.
  rewrite account_switch_try_oauth by done.
  unfold switch_oauth, bind, call_getAccessToken. by rewrite Hauth.
Qed.

Lemma account_switch_flow_throws_witness :
  account_switch "gmail" (fun _ st => (Throw "access_denied", st))
    "1b4e28ba" "2024-02-02T00:00:00.000Z"
    {| arg_email := None; arg_alias := None |} {| kv := ∅; auth_calls := [] |}
  = (Throw "Error switching gmail account: access_denied",
     {| kv := ∅; auth_calls := ["new:1b4e28ba"] |}).
Proof.
  apply (account_switch_flow_throws "gmail" (fun _ st => (Throw "access_denied", st))
           "1b4e28ba" "2024-02-02T00:00:00.000Z"
           {| arg_email := None; arg_alias := None |} {| kv := ∅; auth_calls := [] |}
           "access_denied" ∅); [reflexivity | exact I | reflexivity].
Defined.

(** X21. On the reuse path with an [alias] argument, the metadata of the
    account are replaced: the alias is the new one, [addedAt] is the one of
    the former metadata, or the time of the call when there were none, and
    [lastUsed] and the profile are dropped. The linked accounts are as
    before. *)
Theorem account_switch_reuse_alias
    (svc : string) (getAccessToken : string -> M store string) (uuid now : string)
    (reference new_alias acct : string) (w : world) :
  reference ≠ "" → new_alias ≠ "" →
  returns (findAccountByEmailOrAlias svc reference) (kv w) (Some acct) →
  acct ≠ "" → includes_colon acct = false →
  ∃ r w',
    account_switch svc getAccessToken uuid now
      {| arg_email := Some reference; arg_alias := Some new_alias |} w = (Ok r, w') ∧
    returns (getAccountInfo {| accountId := acct; service := svc |}) (kv w')
      (Some {| email := acct;
               alias := Some new_alias;
               addedAt := match fst (getAccountInfo {| accountId := acct; service := svc |} (kv w)) with
                          | Ok (Some i) => addedAt i
                          | _ => now
                          end;
               lastUsed := None;
               metadata := None |}) ∧
    linked_of (kv w') svc = linked_of (kv w) svc.
Proof.
  intros Href Halias Hfound Hacct Hc.
  pose proof (findAccountByEmailOrAlias_service _ _ _ _ Hfound) as Hs.
  apply returns_run in Hfound; [|apply findAccountByEmailOrAlias_pure].
  apply truthy_true in Href, Hacct, Halias.
  unfold account_switch, try_catch, account_switch_try, bind at 1.
  rewrite (lift_store_run _ w _ _ (getLinkedAccounts_valid svc (kv w) Hs)).
  destruct w as [st calls]. simpl in *. rewrite Href.
  unfold bind at 1.
  rewrite (lift_store_run _ {| kv := st; auth_calls := calls |} _ _ Hfound).
  simpl. rewrite Hacct, Halias.
  unfold bind, lift_store, ret. simpl.
  rewrite setActiveAccount_valid by done.
  rewrite !getAccountInfo_valid by done.
  rewrite setAccountInfo_valid by done.
  eexists _, _. split; [reflexivity|]. simpl. split.
  - unfold returns. rewrite getAccountInfo_valid by done. simpl.
    rewrite lookup_insert_eq. simpl. do 3 f_equal.
    rewrite lookup_insert_ne; [done|].
    intros H. symmetry in H.
    by apply (account_key_not_service_key Metadata acct svc Active) in H.
  - by rewrite (linked_of_insert_account Metadata), linked_of_insert_active.
Qed.

Lemma account_switch_reuse_alias_witness :
  ∃ r w',
    account_switch "gmail" quiet_flow "1b4e28ba" "2024-02-02T00:00:00.000Z"
      {| arg_email := Some "work"; arg_alias := Some "office" |}
      {| kv := store_with_alias ["user1@gmail.com"] "user1@gmail.com"; auth_calls := [] |}
    = (Ok r, w') ∧
    returns (getAccountInfo {| accountId := "user1@gmail.com"; service := "gmail" |}) (kv w')
      (Some {| email := "user1@gmail.com"; alias := Some "office";
               addedAt := "2024-01-01T00:00:00.000Z"; lastUsed := None; metadata := None |}).
Proof.
  destruct (account_switch_reuse_alias "gmail" quiet_flow "1b4e28ba" "2024-02-02T00:00:00.000Z"
              "work" "office" "user1@gmail.com"
              {| kv := store_with_alias ["user1@gmail.com"] "user1@gmail.com"; auth_calls := [] |})
    as (r & w' & Hrun & Hinfo & _);
    [discriminate | discriminate | vm_compute; reflexivity | discriminate | reflexivity |].
  exists r, w'. split; [done|]. exact Hinfo.
Defined.

Lemma keeps_calls_ret {A} (a : A) : keeps_calls (ret a).
Proof. done. Qed.

Lemma keeps_calls_throw {A} msg : keeps_calls (@throw world A msg).
Proof. done. Qed.

Lemma keeps_calls_lift_store {A} (m : M store A) : keeps_calls (lift_store m).
Proof. intros w. unfold lift_store. by destruct (m (kv w)). Qed.

Lemma keeps_calls_bind {A B} (m : M world A) (k : A → M world B) :
  keeps_calls m → (∀ a, keeps_calls (k a)) → keeps_calls (bind m k).
Proof.
  intros Hm Hk w. unfold bind. specialize (Hm w).
  destruct (m w) as [[a|msg] w1]; simpl in *; [|done].
  by rewrite Hk.
Qed.

Create HintDb calls.
#[local] Hint Resolve keeps_calls_ret keeps_calls_throw keeps_calls_lift_store : calls.

Lemma switch_oauth_calls svc getAccessToken uuid now params existing w :
  auth_calls (snd (switch_oauth svc getAccessToken uuid now params existing w))
  = ("new:" +:+ uuid) :: auth_calls w.
Proof.
  unfold switch_oauth, bind at 1, call_getAccessToken.
  destruct (getAccessToken ("new:" +:+ uuid) (kv w)) as [[tok|msg] st']; [|done].
  set (w1 := {| kv := st'; auth_calls := ("new:" +:+ uuid) :: auth_calls w |}).
  transitivity (auth_calls w1); [|done]. clearbody w1. revert w1.
  refine (keeps_calls_bind _ _ _ _); [auto with calls|]. intros active.
  destruct (truthy_opt active) as [e|]; [|auto with calls].
  refine (keeps_calls_bind _ _ _ _); [destruct (negb _); auto with calls | intros _].
  refine (keeps_calls_bind _ _ _ _); [auto with calls | intros existingInfo].
  refine (keeps_calls_bind _ _ _ _); [auto with calls | intros _].
  refine (keeps_calls_bind _ _ _ _); [auto with calls | intros _].
  auto with calls.
Qed.

(** X22. [account-switch] calls the interactive flow at most once, whatever
    the arguments and the store, and whether it returns or throws; on the
    reuse path it does not call it at all. *)
Theorem account_switch_calls
    (svc : string) (getAccessToken : string -> M store string) (uuid now : string)
    (params : SwitchParams) (w : world) :
  auth_calls (snd (account_switch svc getAccessToken uuid now params w)) = auth_calls w ∨
  auth_calls (snd (account_switch svc getAccessToken uuid now params w))
  = ("new:" +:+ uuid) :: auth_calls w.
Proof.
  set (P := λ c, c = auth_calls w ∨ c = ("new:" +:+ uuid) :: auth_calls w).
  assert (Htry : P (auth_calls (snd (account_switch_try svc getAccessToken uuid now params w)))).
  { unfold account_switch_try, bind at 1.
    pose proof (keeps_calls_lift_store (getLinkedAccounts {| svc_service := svc |}) w) as H0.
    destruct (lift_store (getLinkedAccounts {| svc_service := svc |}) w) as [[existing|msg] w0];
      simpl in H0; [|by left].
    destruct (truthy_opt (arg_email params)) as [reference|].
    2:{ right. rewrite switch_oauth_calls. by rewrite H0. }
    unfold bind at 1.
    pose proof (keeps_calls_lift_store (findAccountByEmailOrAlias svc reference) w0) as H1.
    destruct (lift_store (findAccountByEmailOrAlias svc reference) w0) as [[found|msg] w1];
      simpl in H1.
    2:{ left. simpl. congruence. }
    destruct (truthy_opt found) as [email|].
    2:{ right. rewrite switch_oauth_calls. congruence. }
    left. rewrite <- H0, <- H1. clear. revert w1.
    refine (keeps_calls_bind _ _ _ _); [auto with calls | intros _].
    refine (keeps_calls_bind _ _ _ _); [|auto with calls].
    destruct (truthy_opt (arg_alias params)); [|auto with calls].
    refine (keeps_calls_bind _ _ _ _); auto with calls. }
  unfold P in Htry. clear P.
  unfold account_switch, try_catch.
  destruct (account_switch_try svc getAccessToken uuid now params w) as [[r|msg] w'];
    simpl in *; done.
Qed.

(* ===================================================================== *)
(** ** The handlers keep the directory invariant *)
(* ===================================================================== *)

Lemma active_is_linked_insert_account t a s v st :
  active_is_linked st →
  active_is_linked (<[a +:+ ":" +:+ s +:+ ":" +:+ account_key_type_name t := v]> st).
Proof.
  rewrite !active_is_linked_alt. intros Inv s' x Hs'.
  rewrite active_of_insert_account, linked_of_insert_account. by apply Inv.
Qed.

Lemma active_is_linked_setActive svc a st :
  active_is_linked st → a ∈ linked_of st svc →
  active_is_linked (<[svc +:+ ":active" := VString a]> st).
Proof.
  rewrite !active_is_linked_alt. intros Inv Hin s' x Hs'.
  rewrite active_of_insert_active, linked_of_insert_active.
  destruct (decide (s' = svc)) as [->|]; [by intros [= <-] | by apply Inv].
Qed.

Lemma active_is_linked_addAccount p st :
  active_is_linked st → active_is_linked (snd (addAccount p st)).
Proof. intros Inv. by apply (run_op_active_is_linked (OpAdd p)). Qed.

Lemma active_is_linked_removeAccount p st :
  active_is_linked st → active_is_linked (snd (removeAccount p st)).
Proof. intros Inv. by apply (run_op_active_is_linked (OpRemove p)). Qed.

Lemma getAccountInfo_colon a s st :
  includes_colon a = true →
  ∃ msg, getAccountInfo {| accountId := a; service := s |} st = (Throw msg, st).
Proof.
  intros Ha. rewrite getAccountInfo_run. unfold createAccountKey, account_entries.
  simpl. rewrite Ha. by eexists.
Qed.

Lemma switch_oauth_active_is_linked svc getAccessToken uuid now params existing w :
  flow_keeps_invariant getAccessToken →
  active_is_linked (kv w) →
  active_is_linked (kv (snd (switch_oauth svc getAccessToken uuid now params existing w))).
Proof.
  intros Hflow Inv. unfold switch_oauth, bind at 1, call_getAccessToken.
  specialize (Hflow ("new:" +:+ uuid) (kv w) Inv).
  destruct (getAccessToken ("new:" +:+ uuid) (kv w)) as [[tok|msg] st']; simpl in Hflow;
    [|done].
  unfold bind at 1, lift_store at 1. simpl.
  destruct (includes_colon svc) eqn:Hs; [by rewrite getActiveAccount_invalid|].
  rewrite getActiveAccount_valid by done.
  destruct (truthy_opt (active_of st' svc)) as [e|] eqn:Et; [|done].
  apply truthy_opt_Some in Et as [Hact Hne].
  set (new := negb (bool_decide (e ∈ existing))).
  assert (Hsta : ∃ st_a,
            (if new then lift_store (addAccount {| accountId := e; service := svc |}) else ret tt)
              {| kv := st'; auth_calls := ("new:" +:+ uuid) :: auth_calls w |}
            = (Ok tt, {| kv := st_a; auth_calls := ("new:" +:+ uuid) :: auth_calls w |}) ∧
            active_is_linked st_a ∧ e ∈ linked_of st_a svc).
  { destruct new.
    - destruct (addAccount_spec e svc st' Hs) as (st_a & Hadd & Hl & _).
      exists st_a. unfold lift_store. simpl. rewrite Hadd. split; [done|]. split.
      + pose proof (active_is_linked_addAccount {| accountId := e; service := svc |} st' Hflow) as H.
        by rewrite Hadd in H.
      + rewrite Hl, decide_True by done. case_bool_decide; [done|].
        apply elem_of_app. right. apply list_elem_of_here.
    - exists st'. split; [done|]. split; [done|].
      by apply (proj1 (active_is_linked_alt st') Hflow). }
  destruct Hsta as (st_a & Hrun & Inv_a & Hin).
  unfold bind at 1. rewrite Hrun.
  unfold bind at 1, lift_store at 1. simpl.
  destruct (includes_colon e) eqn:He.
  { destruct (getAccountInfo_colon e svc st_a He) as [msg ->]. done. }
  rewrite getAccountInfo_valid by done.
  unfold bind, lift_store, ret. simpl.
  rewrite setAccountInfo_valid by done.
  rewrite setActiveAccount_valid by done. simpl.
  apply active_is_linked_setActive.
  - by apply (active_is_linked_insert_account Metadata).
  - by rewrite (linked_of_insert_account Metadata).
Qed.

(** X23. [account-switch] keeps the invariant of the directory on every
    exit: when the interactive flow keeps it, the store the handler leaves,
    on return or on any failure, has every readable active account among
    the linked accounts of its service, provided the store it started from
    had. *)
Theorem account_switch_active_is_linked
    (svc : string) (getAccessToken : string -> M store string) (uuid now : string)
    (params : SwitchParams) (w : world) :
  flow_keeps_invariant getAccessToken →
  active_is_linked (kv w) →
  active_is_linked (kv (snd (account_switch svc getAccessToken uuid now params w))).
Proof.
  intros Hflow Inv.
  assert (Htry : active_is_linked
                   (kv (snd (account_switch_try svc getAccessToken uuid now params w)))).
  { unfold account_switch_try, bind at 1. unfold lift_store at 1.
    destruct (includes_colon svc) eqn:Hs; [by rewrite getLinkedAccounts_invalid|].
    rewrite getLinkedAccounts_valid by done.
    destruct (truthy_opt (arg_email params)) as [reference|];
      [|by apply switch_oauth_active_is_linked].
    unfold bind at 1, lift_store at 1. simpl.
    pose proof (findAccountByEmailOrAlias_pure svc reference (kv w)) as Hpure.
    pose proof (findAccountByEmailOrAlias_linked svc reference (kv w)) as Hlinked.
    unfold returns in Hlinked.
    destruct (findAccountByEmailOrAlias svc reference (kv w)) as [[found|msg] st0];
      simpl in Hpure, Hlinked; subst st0; [|done].
    destruct (truthy_opt found) as [acct|] eqn:Ef.
    2:{ apply switch_oauth_active_is_linked; [done|]. by destruct w. }
    apply truthy_opt_Some in Ef as [-> Hne].
    specialize (Hlinked acct eq_refl).
    unfold bind at 1, lift_store at 1. simpl.
    rewrite setActiveAccount_valid by done.
    pose proof (active_is_linked_setActive svc acct (kv w) Inv Hlinked) as Inv1.
    destruct (truthy_opt (arg_alias params)) as [new_alias|]; [|done].
    unfold bind at 1. unfold bind at 1, lift_store at 1. simpl.
    destruct (includes_colon acct) eqn:Hc.
    { destruct (getAccountInfo_colon acct svc
                  (<[svc +:+ ":active" := VString acct]> (kv w)) Hc) as [msg ->]. done. }
    rewrite getAccountInfo_valid by done.
    unfold lift_store, ret. simpl.
    rewrite setAccountInfo_valid by done. simpl.
    by apply (active_is_linked_insert_account Metadata). }
  unfold account_switch, try_catch.
  by destruct (account_switch_try svc getAccessToken uuid now params w) as [[r|msg] w'].
Qed.

Lemma account_switch_active_is_linked_witness :
  active_is_linked
    (kv (snd (account_switch "gmail" quiet_flow "1b4e28ba" "2024-02-02T00:00:00.000Z"
                {| arg_email := Some "user1@gmail.com"; arg_alias := Some "work" |}
                {| kv := ∅; auth_calls := [] |}))).
Proof.
  apply account_switch_active_is_linked.
  - intros arg st Inv. exact Inv.
  - apply active_is_linked_empty.
Defined.

(** X24. So does [account-remove]: from a store that satisfies the
    invariant, the store it leaves, on return or on any failure, satisfies
    it. *)
Theorem account_remove_active_is_linked (svc reference : string) (st : store) :
  active_is_linked st →
  active_is_linked (snd (account_remove svc reference st)).
Proof.
  intros Inv.
  assert (Htry : active_is_linked (snd (account_remove_try svc reference st))).
  { unfold account_remove_try, bind at 1.
    destruct (includes_colon svc) eqn:Hs; [by rewrite getLinkedAccounts_invalid|].
    rewrite getLinkedAccounts_valid by done.
    destruct (Nat.eqb (length (linked_of st svc)) 0); [done|].
    unfold bind at 1.
    pose proof (findAccountByEmailOrAlias_pure svc reference st) as Hpure.
    destruct (findAccountByEmailOrAlias svc reference st) as [[found|msg] st0];
      simpl in Hpure; subst st0; [|done].
    destruct (truthy_opt found) as [acct|]; [|done].
    unfold bind at 1. rewrite getActiveAccount_valid by done.
    unfold bind at 1.
    pose proof (active_is_linked_removeAccount {| accountId := acct; service := svc |} st Inv)
      as Inv1.
    destruct (includes_colon acct) eqn:Hc.
    { destruct (removeAccount_invalid acct svc st) as [msg ->]; [by left|]. done. }
    destruct (removeAccount_spec acct svc st Hc Hs) as (st' & Hrun & Hl & _).
    rewrite Hrun in Inv1 |- *. simpl in Inv1.
    specialize (Hl svc). rewrite decide_True in Hl by done. rewrite <- Hl.
    unfold bind.
    destruct (bool_decide (active_of st svc = Some acct) && Nat.ltb 0 (length (linked_of st' svc)));
      [|done].
    destruct (truthy_opt (head (linked_of st' svc))) as [first|] eqn:Eh; [|done].
    apply truthy_opt_Some in Eh as [Eh _].
    rewrite setActiveAccount_valid by done. simpl.
    apply active_is_linked_setActive; [done | by apply head_elem_of]. }
  unfold account_remove, try_catch.
  by destruct (account_remove_try svc reference st) as [[r|msg] st'].
Qed.

Lemma account_remove_active_is_linked_witness :
  active_is_linked
    (snd (account_remove "gmail" "user1@gmail.com"
            (run_ops [OpAdd {| accountId := "user1@gmail.com"; service := "gmail" |};
                      OpAdd {| accountId := "user2@gmail.com"; service := "gmail" |}] ∅))).
Proof.
  apply account_remove_active_is_linked. unfold run_ops.
  apply (run_op_active_is_linked (OpAdd _)); [|reflexivity].
  apply (run_op_active_is_linked (OpAdd _)); [|reflexivity].
  apply active_is_linked_empty.
Defined.

(* ===================================================================== *)
(** ** account-me *)
(* ===================================================================== *)

Lemma append_nonempty_r s t : t ≠ "" → s +:+ t ≠ "".
Proof. intros Ht. destruct s; simpl; [done | discriminate]. Qed.

Lemma formatDuration_nonempty ms : formatDuration ms ≠ "".
Proof.
  unfold formatDuration. cbv zeta.
  repeat case_match; apply append_nonempty_r; simpl; discriminate.
Qed.

Lemma getToken_pure p st : snd (getToken p st) = st.
Proof. by rewrite getToken_run. Qed.

Lemma session_expiry_run svc expiresAt_of now_ms a st :
  includes_colon a = false → includes_colon svc = false →
  session_expiry svc expiresAt_of now_ms a st
  = (Ok (match as_token (st !! (a +:+ ":" +:+ svc +:+ ":token")) ≫= expiresAt_of with
         | Some expiresAt =>
             if (expiresAt =? 0)%Z then "never"
             else if (now_ms <? expiresAt)%Z then formatDuration (expiresAt - now_ms)
                  else "expired"
         | None => "never"
         end), st).
Proof.
  intros Ha Hs. unfold session_expiry, try_catch, bind.
  rewrite getToken_run, createAccountKey_valid by done. simpl.
  destruct (as_token _) as [payload|]; simpl; [|done].
  destruct (expiresAt_of payload) as [t|]; [|done].
  destruct (t =? 0)%Z; [done|]. by destruct (now_ms <? t)%Z.
Qed.

Lemma session_expiry_pure svc expiresAt_of now_ms a st :
  snd (session_expiry svc expiresAt_of now_ms a st) = st.
Proof.
  unfold session_expiry, try_catch, bind.
  pose proof (getToken_pure {| accountId := a; service := svc |} st) as E.
  destruct (getToken _ st) as [[token|msg] st']; simpl in E; subst st'; [|done].
  destruct token as [payload|]; [|done].
  destruct (expiresAt_of payload) as [t|]; [|done].
  destruct (t =? 0)%Z; [done|]. by destruct (now_ms <? t)%Z.
Qed.

(** X25. [account-me] never writes to the store: in every mode, with or
    without a store, and whether it returns or throws, the store after the
    call is the store before it. *)
Theorem account_me_reads_only
    (svc : string) (expiresAt_of : string -> option Z) (now_ms : Z)
    (mode : MeMode) (authContext : option string) (o : option store) :
  snd (account_me svc expiresAt_of now_ms mode authContext o) = o.
Proof.
  assert (Hstore : snd (try_catch (with_store (account_me_store svc expiresAt_of now_ms))
                          (fun msg => throw ("Error getting " +:+ svc +:+ " account info: " +:+ msg)) o)
                   = o).
  { unfold try_catch, with_store. destruct o as [st|]; [|done].
    assert (E : snd (account_me_store svc expiresAt_of now_ms st) = st).
    { unfold account_me_store, bind at 1.
      destruct (includes_colon svc) eqn:Hs; [by rewrite getActiveAccount_invalid|].
      rewrite getActiveAccount_valid by done.
      destruct (truthy_opt (active_of st svc)) as [a|]; [|done].
      unfold bind at 1.
      pose proof (getAccountInfo_pure {| accountId := a; service := svc |} st) as E.
      destruct (getAccountInfo _ st) as [[info|msg] st']; simpl in E; subst st'; [|done].
      unfold bind.
      pose proof (session_expiry_pure svc expiresAt_of now_ms a st) as E.
      by destruct (session_expiry svc expiresAt_of now_ms a st) as [[e|msg] st']. }
    destruct (account_me_store svc expiresAt_of now_ms st) as [[r|msg] st'];
      simpl in *; by subst. }
  destruct mode; try exact Hstore.
  unfold account_me, try_catch. by destruct (truthy_opt authContext).
Qed.

(** X26. In the modes that use the store, [account-me] throws when no
    non-empty active account can be read for the service: the error says
    that no active account was found. *)
Theorem account_me_no_active
    (svc : string) (expiresAt_of : string -> option Z) (now_ms : Z)
    (mode : MeMode) (authContext : option string) (st : store) (o : option string) :
  mode ≠ MeStateless →
  returns (getActiveAccount {| svc_service := svc |}) st o →
  truthy_opt o = None →
  account_me svc expiresAt_of now_ms mode authContext (Some st)
  = (Throw ("Error getting " +:+ svc +:+ " account info: No active " +:+ svc
            +:+ " account found. Use account-switch to add an account."),
     Some st).
Proof.
  intros Hmode [Hs Ho]%returns_getActiveAccount Ht.
  assert (E : account_me_store svc expiresAt_of now_ms st
              = (Throw ("No active " +:+ svc
                        +:+ " account found. Use account-switch to add an account."), st)).
  { unfold account_me_store, bind. rewrite getActiveAccount_valid by done.
    by rewrite Ho, Ht. }
  destruct mode; try done; unfold account_me, try_catch, with_store; by rewrite E.
Qed.

Lemma account_me_no_active_witness :
  account_me "gmail" (fun _ => None) 1700000000000 MeLoopback None (Some ∅)
  = (Throw "Error getting gmail account info: No active gmail account found. Use account-switch to add an account.",
     Some ∅).
Proof.
  apply (account_me_no_active "gmail" (fun _ => None) 1700000000000 MeLoopback None ∅ None);
    [discriminate | reflexivity | reflexivity].
Defined.

(** X27. In the modes that use the store, with a non-empty, valid active
    account, [account-me] returns. The email is the one of the metadata, or
    the account identifier when there are no metadata. The session expiry
    is always given: "never" when there is no token, no expiry or the
    expiry is zero, the formatted time that is left when the expiry is
    after the current time, and "expired" otherwise. *)
Theorem account_me_active
    (svc : string) (expiresAt_of : string -> option Z) (now_ms : Z)
    (mode : MeMode) (authContext : option string) (st : store) (a : string) :
  mode ≠ MeStateless →
  returns (getActiveAccount {| svc_service := svc |}) st (Some a) →
  a ≠ "" → includes_colon a = false →
  ∃ r,
    account_me svc expiresAt_of now_ms mode authContext (Some st) = (Ok r, Some st) ∧
    me_email r = match as_info (st !! (a +:+ ":" +:+ svc +:+ ":metadata")) with
                 | Some i => email i
                 | None => a
                 end ∧
    sessionExpiresIn r
    = Some (match as_token (st !! (a +:+ ":" +:+ svc +:+ ":token")) ≫= expiresAt_of with
            | Some expiresAt =>
                if (expiresAt =? 0)%Z then "never"
                else if (now_ms <? expiresAt)%Z then formatDuration (expiresAt - now_ms)
                     else "expired"
            | None => "never"
            end).
Proof.
  intros Hmode [Hs Ho]%returns_getActiveAccount Hne Ha.
  assert (E : ∃ r, account_me_store svc expiresAt_of now_ms st = (Ok r, st) ∧
                   me_email r = match as_info (st !! (a +:+ ":" +:+ svc +:+ ":metadata")) with
                                | Some i => email i
                                | None => a
                                end ∧
                   sessionExpiresIn r
                   = Some (match as_token (st !! (a +:+ ":" +:+ svc +:+ ":token")) ≫= expiresAt_of with
                           | Some expiresAt =>
                               if (expiresAt =? 0)%Z then "never"
                               else if (now_ms <? expiresAt)%Z
                                    then formatDuration (expiresAt - now_ms)
                                    else "expired"
                           | None => "never"
                           end)).
  { unfold account_me_store, bind. rewrite getActiveAccount_valid by done.
    rewrite Ho. simpl. apply truthy_true in Hne. rewrite Hne.
    rewrite getAccountInfo_valid by done.
    rewrite session_expiry_run by done.
    eexists. split; [reflexivity|]. split; [reflexivity|]. simpl.
    destruct (as_token _ ≫= expiresAt_of) as [t|]; [|done].
    destruct (t =? 0)%Z; [done|]. destruct (now_ms <? t)%Z; [|done].
    pose proof (formatDuration_nonempty (t - now_ms)) as Hf.
    apply truthy_true in Hf. by rewrite Hf. }
  destruct E as (r & E & Hr). exists r. split; [|done].
  destruct mode; try done; unfold account_me, try_catch, with_store; by rewrite E.
Qed.

Lemma account_me_active_witness :
  ∃ r,
    account_me "gmail" (fun _ => Some 1700007200000%Z) 1700000000000 MeLoopback None
      (Some (snd (setToken {| accountId := "user@gmail.com"; service := "gmail" |} "test-token"
                    (run_ops [OpAdd {| accountId := "user@gmail.com"; service := "gmail" |}] ∅))))
    = (Ok r,
       Some (snd (setToken {| accountId := "user@gmail.com"; service := "gmail" |} "test-token"
                    (run_ops [OpAdd {| accountId := "user@gmail.com"; service := "gmail" |}] ∅)))) ∧
    me_email r = "user@gmail.com" ∧ sessionExpiresIn r = Some "2h".
Proof.
  destruct (account_me_active "gmail" (fun _ => Some 1700007200000%Z) 1700000000000
              MeLoopback None
              (snd (setToken {| accountId := "user@gmail.com"; service := "gmail" |} "test-token"
                      (run_ops [OpAdd {| accountId := "user@gmail.com"; service := "gmail" |}] ∅)))
              "user@gmail.com")
    as (r & Hrun & Hemail & Hsession);
    [discriminate | reflexivity | discriminate | reflexivity |].
  exists r. split; [done|]. split; [by rewrite Hemail|]. rewrite Hsession. reflexivity.
Defined.

(** X28. Within the range of the whole numbers up to [MAX_SAFE_INTEGER],
    [formatDuration] rounds down: a time below one second is "0s", the part
    of a second never shows, and from one minute on the seconds do not show
    either, so that two times within the same minute are formatted alike. *)
Theorem formatDuration_rounds_down (ms : Z) :
  (0 ≤ ms ≤ MAX_SAFE_INTEGER)%Z →
  ((ms < 1000)%Z → formatDuration ms = "0s") ∧
  ((0 ≤ 1000 * (ms / 1000) ≤ MAX_SAFE_INTEGER)%Z ∧
   formatDuration ms = formatDuration (1000 * (ms / 1000))) ∧
  ((60000 ≤ ms)%Z →
   (0 ≤ 60000 * (ms / 60000) ≤ MAX_SAFE_INTEGER)%Z ∧
   formatDuration ms = formatDuration (60000 * (ms / 60000))).
Proof.
  unfold MAX_SAFE_INTEGER. intros Hms. split; [|split; [split|]].
  - intros Hlt. unfold formatDuration. by rewrite Z.div_small by lia.
  - pose proof (Z.mul_div_le ms 1000 ltac:(lia)).
    pose proof (Z.div_pos ms 1000 ltac:(lia) ltac:(lia)). lia.
  - unfold formatDuration. cbv zeta.
    by rewrite (Z.mul_comm 1000), Z.div_mul by lia.
  - intros Hmin. split.
    { pose proof (Z.mul_div_le ms 60000 ltac:(lia)).
      pose proof (Z.div_pos ms 60000 ltac:(lia) ltac:(lia)). lia. }
    unfold formatDuration. cbv zeta.
    assert (Hq : (ms / 1000 / 60 = ms / 60000)%Z) by (rewrite Z.div_div by lia; done).
    assert (Hq1 : (1 ≤ ms / 60000)%Z) by (apply Z.div_le_lower_bound; lia).
    assert (HS : (60 ≤ ms / 1000)%Z) by (apply Z.div_le_lower_bound; lia).
    replace (60000 * (ms / 60000) / 1000)%Z with (60 * (ms / 60000))%Z.
    2:{ replace (60000 * (ms / 60000))%Z with (60 * (ms / 60000) * 1000)%Z by lia.
        by rewrite Z.div_mul by lia. }
    rewrite (Z.mul_comm 60 (ms / 60000)), Z.div_mul, Hq by lia.
    destruct (Z.ltb_spec (ms / 1000) 60); [lia|].
    destruct (Z.ltb_spec (ms / 60000 * 60) 60); [lia|]. done.
Qed.

Lemma formatDuration_rounds_down_witness :
  formatDuration 999 = "0s" ∧
  formatDuration 8159999 = formatDuration 8159000 ∧
  formatDuration 8159999 = formatDuration 8100000 ∧
  formatDuration 8159999 = "2h 15m".
Proof.
  destruct (formatDuration_rounds_down 999) as (H1 & _); [unfold MAX_SAFE_INTEGER; lia|].
  destruct (formatDuration_rounds_down 8159999) as (_ & [_ H2] & H3);
    [unfold MAX_SAFE_INTEGER; lia|].
  split; [apply H1; lia|]. split; [exact H2|].
  split; [apply H3; lia | reflexivity].
Defined.
